(** * tspconvertcompare: document resolution, normalisation and diff filters

    A shallow embedding of [src/tspconvertcompare/__init__.py].

    - Python [str] values are sequences of Unicode code points: [list N].
    - The values [json.load] returns are the trees of [json]; the mutable
      [dict] and [list] objects the program shares and updates in place live
      in a [heap] and are named by their address.
    - Exceptions are the constructors of [error]; the store survives them. *)

From Stdlib Require Import ZArith NArith List String Ascii Bool Lia.
From stdpp Require Import base list.

#[local] Set Warnings "-register-all".
Local Open Scope N_scope.

(** ** Strings *)

Abbreviation char := N (only parsing).
Abbreviation str := (list N) (only parsing).

(** A literal of the source, as its code points. *)
Definition lit (s : string) : str := map N_of_ascii (list_ascii_of_string s).
Arguments lit s%_string.

Definition HASH : char := 35.
Definition SLASH : char := 47.

Fixpoint str_eqb (a b : str) : bool :=
  match a, b with
  | [], [] => true
  | x :: a', y :: b' => (x =? y) && str_eqb a' b'
  | _, _ => false
  end.

(** [s < t] on strings: code points, lexicographically. *)
Fixpoint str_ltb (a b : str) : bool :=
  match a, b with
  | _, [] => false
  | [], _ :: _ => true
  | x :: a', y :: b' => (x <? y) || ((x =? y) && str_ltb a' b')
  end.

(** [s.startswith(prefix)] *)
Fixpoint startswith (prefix s : str) : bool :=
  match prefix, s with
  | [], _ => true
  | _ :: _, [] => false
  | p :: prefix', c :: s' => (p =? c) && startswith prefix' s'
  end.

(** [s.endswith(suffix)] *)
Definition endswith (suffix s : str) : bool := startswith (rev suffix) (rev s).

(** [needle in s] *)
Fixpoint contains (needle s : str) : bool :=
  startswith needle s ||
  match s with
  | [] => false
  | _ :: s' => contains needle s'
  end.

(** [s.split(sep)] for a separator of one character. *)
Fixpoint split (sep : char) (s : str) : list str :=
  match s with
  | [] => [[]]
  | c :: s' =>
      if c =? sep then [] :: split sep s'
      else match split sep s' with
           | seg :: segs => (c :: seg) :: segs
           | [] => [[c]]
           end
  end.

(** [s.split(sep, 1)] for a separator of one character. *)
Fixpoint split_once (sep : char) (s : str) : list str :=
  match s with
  | [] => [[]]
  | c :: s' =>
      if c =? sep then [[]; s']
      else match split_once sep s' with
           | seg :: segs => (c :: seg) :: segs
           | [] => [[c]]
           end
  end.

(** [s.replace(old, new)] for a non-empty [old]: occurrences are taken from
    the left and do not overlap.  [skip] counts the characters of a match
    that are still to be passed over. *)
Fixpoint replace_from (old new : str) (skip : nat) (s : str) : str :=
  match s with
  | [] => []
  | c :: s' =>
      match skip with
      | S k => replace_from old new k s'
      | O =>
          if startswith old s
          then new ++ replace_from old new (length old - 1)%nat s'
          else c :: replace_from old new 0 s'
      end
  end.

Definition replace (old new s : str) : str := replace_from old new 0 s.

(** [str.isspace] for one code point, the set [str.strip()] removes. *)
Definition isspace (c : char) : bool :=
  ((9 <=? c) && (c <=? 13)) || ((28 <=? c) && (c <=? 32))
  || (c =? 133) || (c =? 160) || (c =? 5760)
  || ((8192 <=? c) && (c <=? 8202))
  || (c =? 8232) || (c =? 8233) || (c =? 8239) || (c =? 8287) || (c =? 12288).

Fixpoint lstrip (s : str) : str :=
  match s with
  | [] => []
  | c :: s' => if isspace c then lstrip s' else s
  end.

Definition rstrip (s : str) : str := rev (lstrip (rev s)).

(** [s.strip()] *)
Definition strip (s : str) : str := rstrip (lstrip s).

(** ** JSON trees and exceptions *)

(** What [json.load] returns, and what [normalize] builds.  The members of an
    object are listed in insertion order, each key once.  A float is kept as
    its IEEE-754 bit pattern: the program only passes floats along. *)
Inductive json : Type :=
| JNull
| JBool (b : bool)
| JInt (n : Z)
| JFloat (bits : Z)
| JStr (s : str)
| JList (items : list json)
| JDict (entries : list (str * json)).

Inductive error : Type :=
| FileNotFoundError
| OSError            (* [open] fails for another reason *)
| JSONDecodeError    (* the file is not JSON *)
| KeyError
| IndexError
| ValueError
| TypeError
| AttributeError
| AssertionError
| Unmodelled         (* a Python behaviour the embedding leaves out *)
| OutOfFuel.         (* the recursion bound of the embedding was reached *)

(** ** [split_ref] *)

Definition split_ref (jsonptr : str) : str * str :=
  if startswith (lit "#") jsonptr then ([], drop 1 jsonptr)
  else if contains (lit "#") jsonptr then
    let parts := split_once HASH jsonptr in
    (nth 0 parts [], nth 1 parts [])
  else (jsonptr, []).

(** ** The filter registry *)

(** A jsonpatch operation is a [dict]: ["op"], ["path"], ["value"], ... *)
Abbreviation diff_op := (list (str * json)) (only parsing).

(** [diff.get(key, default)] *)
Fixpoint diff_get (diff : diff_op) (key : str) (default : json) : json :=
  match diff with
  | [] => default
  | (k, v) :: diff' => if str_eqb k key then v else diff_get diff' key default
  end.

(** [v == s] for a string [s]. *)
Definition eq_str (v : json) (s : str) : bool :=
  match v with
  | JStr s' => str_eqb s' s
  | _ => false
  end.

(** A [str] method applied to [v]: a value that is no [str] has no such
    attribute. *)
Definition str_method {A} (f : str -> A) (v : json) : error + A :=
  match v with
  | JStr s => inr (f s)
  | _ => inl AttributeError
  end.

(** [a and b] where [a] may raise. *)
Definition and_then (a : error + bool) (b : error + bool) : error + bool :=
  match a with
  | inr true => b
  | other => other
  end.

(** [a or b] where [a] may raise. *)
Definition or_else (a : error + bool) (b : error + bool) : error + bool :=
  match a with
  | inr false => b
  | other => other
  end.

Definition path_of (diff : diff_op) : json := diff_get diff (lit "path") (JStr (lit "")).

Definition path_contains (needle : string) (diff : diff_op) : error + bool :=
  str_method (contains (lit needle)) (path_of diff).
Definition path_endswith (suffix : string) (diff : diff_op) : error + bool :=
  str_method (endswith (lit suffix)) (path_of diff).
Definition path_startswith (prefix : string) (diff : diff_op) : error + bool :=
  str_method (startswith (lit prefix)) (path_of diff).

Definition _ignore_response_property_readonly (diff : diff_op) : error + bool :=
  and_then (path_contains "/responses/" diff) (path_endswith "readOnly" diff).

Definition ignore_added_paths (diff : diff_op) : error + bool :=
  and_then (inr (eq_str (diff_get diff (lit "op") (JStr (lit ""))) (lit "add")))
    (and_then (path_startswith "/paths/" diff)
       (str_method (fun p => (length (split SLASH p) =? 3)%nat) (path_of diff))).

Definition filters : list (str * (diff_op -> error + bool)) :=
  [ (lit "ignore-examples", path_contains "/x-ms-examples");
    (lit "ignore-descriptions", path_endswith "/description");
    (lit "ignore-operation-ids", path_endswith "/operationId");
    (lit "ignore-fragments", path_contains "/__fragment");
    (lit "ignore-consumes-produces",
      fun diff => or_else (path_endswith "/consumes" diff) (path_endswith "/produces" diff));
    (lit "ignore-response-readonly", _ignore_response_property_readonly);
    (lit "ignore-x-ms-parameterlocation", path_endswith "/x-ms-parameter-location");
    (lit "ignore-x-ms-mutability", path_endswith "/x-ms-mutability");
    (lit "ignore-x-ms-client-name", path_endswith "/x-ms-client-name");
    (lit "ignore-security-definition", path_startswith "/security");
    (lit "ignore-info-definition", path_startswith "/info");
    (lit "ignore-tags", path_startswith "/tags");
    (lit "ignore-schemes", path_startswith "/schemes");
    (lit "ignore-added-paths", ignore_added_paths);
    (lit "ignore-example", path_endswith "/example") ].

(** [filters[name]["func"]] *)
Fixpoint filter_func (registry : list (str * (diff_op -> error + bool))) (name : str)
  : option (diff_op -> error + bool) :=
  match registry with
  | [] => None
  | (n, f) :: registry' => if str_eqb n name then Some f else filter_func registry' name
  end.

(** ** The heap of shared objects *)

Abbreviation addr := nat (only parsing).

(** A Python value: a scalar, or a reference to a [dict] or [list] object. *)
Inductive value : Type :=
| VNone
| VBool (b : bool)
| VInt (n : Z)
| VFloat (bits : Z)
| VStr (s : str)
| VRef (a : addr).

Inductive obj : Type :=
| ODict (entries : list (str * value))
| OList (items : list value).

Abbreviation heap := (list obj) (only parsing).

(** An [OpenApiDocument]: a [dict] object with the attribute [path], which
    [__init__] sets and nothing assigns afterwards. *)
Record OpenApiDocument : Type := mkOpenApiDocument {
  this : addr;
  path : list str
}.

(** The state of a run: the heap and the two [functools.lru_cache] tables,
    most recently used entry first. *)
Record state : Type := mkState {
  objects : heap;
  load_document_cache : list (str * OpenApiDocument);
  load_fragment_cache : list ((str * str) * value)
}.

Definition initial : state := mkState [] [] [].

(** ** Computations that may raise *)

Definition M (S A : Type) : Type := S -> (error + A) * S.

Definition ret {S A} (x : A) : M S A := fun s => (inr x, s).
Definition raise {S A} (e : error) : M S A := fun s => (inl e, s).
Definition bind {S A B} (m : M S A) (k : A -> M S B) : M S B :=
  fun s =>
    match m s with
    | (inr x, s') => k x s'
    | (inl e, s') => (inl e, s')
    end.

Declare Scope py_scope.
Delimit Scope py_scope with py.
Notation "'let*' x ':=' m 'in' k" := (bind m (fun x => k))
  (at level 10, x pattern, m at level 100, k at level 200) : py_scope.
Notation "m ';;' k" := (bind m (fun _ => k))
  (at level 100, k at level 200, right associativity) : py_scope.
Local Open Scope py_scope.

(** A result that is already known. *)
Definition of_result {S A} (r : error + A) : M S A :=
  match r with
  | inr x => ret x
  | inl e => raise e
  end.

(** Run a heap computation on the heap of the store. *)
Definition on_heap {A} (m : M heap A) : M state A :=
  fun s =>
    let '(r, h) := m (objects s) in
    (r, mkState h (load_document_cache s) (load_fragment_cache s)).

Section Loops.
Context {S A B : Type}.

(** [for x in xs: acc = f(acc, x)] *)
Fixpoint foldM (f : B -> A -> M S B) (acc : B) (xs : list A) : M S B :=
  match xs with
  | [] => ret acc
  | x :: xs' => let* acc' := f acc x in foldM f acc' xs'
  end.

Variable f : A -> M S B.

(** [[f(x) for x in xs]] *)
Fixpoint mapM (xs : list A) : M S (list B) :=
  match xs with
  | [] => ret []
  | x :: xs' => let* y := f x in let* ys := mapM xs' in ret (y :: ys)
  end.
End Loops.

(** ** Objects *)

(** A new object, at the next free address. *)
Definition new_object (o : obj) : M heap addr :=
  fun h => (inr (length h), h ++ [o]).

(** The object at an address ([Unmodelled]: no reference dangles). *)
Definition deref (a : addr) : M heap obj :=
  fun h =>
    match h !! a with
    | Some o => (inr o, h)
    | None => (inl Unmodelled, h)
    end.

Definition assign (a : addr) (o : obj) : M heap unit :=
  fun h => (inr tt, <[a := o]> h).

(** The members of a [dict], in insertion order. *)
Fixpoint entries_get (es : list (str * value)) (key : str) : option value :=
  match es with
  | [] => None
  | (k, v) :: es' => if str_eqb k key then Some v else entries_get es' key
  end.

Fixpoint entries_set (es : list (str * value)) (key : str) (v : value) : list (str * value) :=
  match es with
  | [] => [(key, v)]
  | (k, v') :: es' =>
      if str_eqb k key then (k, v) :: es' else (k, v') :: entries_set es' key v
  end.

Fixpoint entries_del (es : list (str * value)) (key : str) : list (str * value) :=
  match es with
  | [] => []
  | (k, v) :: es' => if str_eqb k key then es' else (k, v) :: entries_del es' key
  end.

(** [isinstance(v, dict)] *)
Definition isinstance_dict (v : value) : M heap bool :=
  match v with
  | VRef a => let* o := deref a in
              ret match o with ODict _ => true | OList _ => false end
  | _ => ret false
  end.

(** [isinstance(v, list)] *)
Definition isinstance_list (v : value) : M heap bool :=
  match v with
  | VRef a => let* o := deref a in
              ret match o with OList _ => true | ODict _ => false end
  | _ => ret false
  end.

(** [d[key]] for a [dict] [d]. *)
Definition dict_getitem (a : addr) (key : str) : M heap value :=
  let* o := deref a in
  match o with
  | ODict es => match entries_get es key with
                | Some v => ret v
                | None => raise KeyError
                end
  | OList _ => raise TypeError
  end.

(** [l[i]] for a [list] [l]: a negative index counts from the end. *)
Definition list_getitem (a : addr) (i : Z) : M heap value :=
  let* o := deref a in
  match o with
  | OList xs =>
      let n := Z.of_nat (length xs) in
      let j := (if i <? 0 then i + n else i)%Z in
      if ((0 <=? j) && (j <? n))%Z then
        match xs !! Z.to_nat j with
        | Some v => ret v
        | None => raise IndexError
        end
      else raise IndexError
  | ODict _ => raise TypeError
  end.

(** [v[key] = x]: only a [dict] takes a string key. *)
Definition setitem (v : value) (key : str) (x : value) : M heap unit :=
  match v with
  | VRef a => let* o := deref a in
              match o with
              | ODict es => assign a (ODict (entries_set es key x))
              | OList _ => raise TypeError
              end
  | _ => raise TypeError
  end.

(** [d.pop(key)] for a [dict] [d]. *)
Definition dict_pop (a : addr) (key : str) : M heap value :=
  let* v := dict_getitem a key in
  let* o := deref a in
  match o with
  | ODict es => assign a (ODict (entries_del es key));; ret v
  | OList _ => raise TypeError
  end.

(** [d.update(other)]: only a [dict] has the method; the members of the
    mapping [other] are assigned in order, and updating a [dict] with itself
    changes nothing.  An [other] that is a sequence of pairs (a list, a
    string) is left out. *)
Definition dict_update (a : addr) (other : value) : M heap unit :=
  let* target := deref a in
  match target with
  | OList _ => raise AttributeError
  | ODict _ =>
      match other with
      | VRef b =>
          let* o := deref b in
          match o with
          | ODict es =>
              if (a =? b)%nat then ret tt
              else foldM (fun _ '(k, v) => setitem (VRef a) k v) tt es
          | OList _ => raise Unmodelled
          end
      | VStr _ => raise Unmodelled
      | _ => raise TypeError
      end
  end.

(** [json.load]: the tree becomes objects, children first. *)
Fixpoint alloc (t : json) : M heap value :=
  match t with
  | JNull => ret VNone
  | JBool b => ret (VBool b)
  | JInt n => ret (VInt n)
  | JFloat f => ret (VFloat f)
  | JStr s => ret (VStr s)
  | JList items =>
      let* vs := mapM alloc items in
      let* a := new_object (OList vs) in
      ret (VRef a)
  | JDict entries =>
      let* es := mapM (fun e => let* v := alloc (snd e) in ret (fst e, v)) entries in
      let* a := new_object (ODict es) in
      ret (VRef a)
  end.

(** ** Builtins *)

Definition is_digit (c : char) : bool := (48 <=? c) && (c <=? 57).

(** The digits of [int(s)] after the sign: groups of digits, single
    underscores between them. *)
Fixpoint int_digits (acc : Z) (after_digit : bool) (s : str) : option Z :=
  match s with
  | [] => if after_digit then Some acc else None
  | c :: s' =>
      if is_digit c then int_digits (10 * acc + Z.of_N (c - 48))%Z true s'
      else if (c =? 95) && after_digit then
        match s' with
        | d :: _ => if is_digit d then int_digits acc false s' else None
        | [] => None
        end
      else None
  end.

(** [int(s)] for a string of printable ASCII characters: a sign, then
    decimal digits.  Surrounding white space and the digits of other scripts,
    which [int] also reads, are left out. *)
Definition int_of_str (s : str) : error + Z :=
  if forallb (fun c => (33 <=? c) && (c <=? 126)) s then
    let '(sign, body) :=
      match s with
      | 45 :: s' => ((-1)%Z, s')
      | 43 :: s' => (1%Z, s')
      | _ => (1%Z, s)
      end in
    match int_digits 0 false body with
    | Some n => inr (sign * n)%Z
    | None => inl ValueError
    end
  else inl Unmodelled.

Fixpoint digits_of (fuel : nat) (n : N) (acc : str) : str :=
  match fuel with
  | O => acc
  | S fuel' =>
      let acc' := (48 + n mod 10) :: acc in
      if n <? 10 then acc' else digits_of fuel' (n / 10) acc'
  end.

(** [str(index)] for an index of [enumerate]. *)
Definition str_of_nat (n : nat) : str := digits_of (S n) (N.of_nat n) [].

(** [str(v)]: a string is itself; the other conversions are left out. *)
Definition str_of_value {S} (v : value) : M S str :=
  match v with
  | VStr s => ret s
  | _ => raise Unmodelled
  end.

Fixpoint insert_sorted (k : str) (l : list str) : list str :=
  match l with
  | [] => [k]
  | k' :: l' => if str_ltb k' k then k' :: insert_sorted k l' else k :: l
  end.

(** [sorted(keys)] *)
Fixpoint sorted (keys : list str) : list str :=
  match keys with
  | [] => []
  | k :: keys' => insert_sorted k (sorted keys')
  end.

(** ** [functools.lru_cache] *)

Definition maxsize : nat := 128.

Section Lru.
Context {K V : Type} (eqb : K -> K -> bool).

Fixpoint cache_find (k : K) (c : list (K * V)) : option V :=
  match c with
  | [] => None
  | (k', v) :: c' => if eqb k' k then Some v else cache_find k c'
  end.

Fixpoint cache_remove (k : K) (c : list (K * V)) : list (K * V) :=
  match c with
  | [] => []
  | (k', v) :: c' => if eqb k' k then c' else (k', v) :: cache_remove k c'
  end.

(** A hit makes the entry the most recently used one. *)
Definition cache_touch (k : K) (v : V) (c : list (K * V)) : list (K * V) :=
  (k, v) :: cache_remove k c.

(** A miss stores the result; a full table drops its least recently used
    entry. *)
Definition cache_store (k : K) (v : V) (c : list (K * V)) : list (K * V) :=
  take maxsize ((k, v) :: c).

(** The decorated function: the body runs on a miss only, and a call that
    raises stores nothing. *)
Definition lru_cache (table : state -> list (K * V))
    (set_table : list (K * V) -> state -> state)
    (body : K -> M state V) (k : K) : M state V :=
  fun s =>
    match cache_find k (table s) with
    | Some v => (inr v, set_table (cache_touch k v (table s)) s)
    | None =>
        match body k s with
        | (inr v, s') => (inr v, set_table (cache_store k v (table s')) s')
        | (inl e, s') => (inl e, s')
        end
    end.
End Lru.

Definition set_load_document_cache (c : list (str * OpenApiDocument)) (s : state) : state :=
  mkState (objects s) c (load_fragment_cache s).

Definition set_load_fragment_cache (c : list ((str * str) * value)) (s : state) : state :=
  mkState (objects s) (load_document_cache s) c.

Definition key_eqb (a b : str * str) : bool := str_eqb (fst a) (fst b) && str_eqb (snd a) (snd b).

(** ** The program *)

(** What [open(path)] and [json.load] find at a path.  A file that parses
    holds a JSON object: [OpenApiDocument] is built from no other content
    here. *)
Inductive file : Type :=
| NoSuchFile
| Unreadable
| Malformed
| JsonFile (entries : list (str * json)).

Section Program.

(** The files of the run. *)
Variable files : str -> file.
(** [str(pathlib.Path(path).parents[0] / filepath)] *)
Variable sibling : str -> str -> error + str.
(** [json_merge_patch.merge(base, patch)] *)
Variable mergepatch_merge : value -> value -> M heap value.

(** [OpenApiDocument(data, path=path)] for a string [path]: a new [dict]
    with the members of [data]. *)
Definition new_document (entries : list (str * value)) (path : str) : M heap OpenApiDocument :=
  let* a := new_object (ODict entries) in
  ret (mkOpenApiDocument a [path]).

Definition load_document_body (path : str) : M state OpenApiDocument :=
  match files path with
  | JsonFile entries =>
      (* the [dict] that [json.load] returns is copied by [dict.__init__] *)
      on_heap (let* es := mapM (fun e => let* v := alloc (snd e) in ret (fst e, v)) entries in
               new_document es path)
  | Unreadable => raise OSError
  | Malformed => raise JSONDecodeError
  | NoSuchFile =>
      if contains (lit "/examples/") path
      then on_heap (new_document [] path)
      else raise FileNotFoundError
  end.

Definition load_document : str -> M state OpenApiDocument :=
  lru_cache str_eqb load_document_cache set_load_document_cache load_document_body.

(** [self.merge(other)] *)
Definition merge (self other : OpenApiDocument) : M state unit :=
  on_heap (let* merged := mergepatch_merge (VRef (this self)) (VRef (this other)) in
           dict_update (this self) merged).

(** [paths.pop(0)]: the element and what is left of the list. *)
Definition pop0 (paths : list str) : (error + str) * list str :=
  match paths with
  | [] => (inl IndexError, [])
  | p :: rest => (inr p, rest)
  end.

(** [load(paths)]: the result, and the caller's list after the call. *)
Definition load (paths : list str) : state -> ((error + OpenApiDocument) * state) * list str :=
  fun s =>
    let '(first, paths) := pop0 paths in
    ((let* p := of_result first in
      let* root := load_document p in
      foldM (fun _ path => let* other := load_document path in merge root other) tt paths;;
      ret root) s, paths).

(** One step of the pointer walk. *)
Definition walk_segment (document : value) (segment : str) : M heap value :=
  let* is_list := isinstance_list document in
  let* document :=
    (if is_list : bool then
       let* i := of_result (int_of_str segment) in
       match document with
       | VRef a => list_getitem a i
       | _ => raise TypeError
       end
     else ret document) in
  let* is_dict := isinstance_dict document in
  if is_dict : bool then
    match document with
    | VRef a => dict_getitem a segment
    | _ => raise TypeError
    end
  else raise AssertionError.

(** [relative_jsonptr.replace("//", "/")[1:].split("/")] *)
Definition segments (relative_jsonptr : str) : list str :=
  split SLASH (drop 1 (replace (lit "//") (lit "/") relative_jsonptr)).

Definition load_fragment_body (key : str * str) : M state value :=
  let '(path, raw_jsonptr) := key in
  let '(filepath, relative_jsonptr) := split_ref raw_jsonptr in
  let* document :=
    (match filepath with
     | _ :: _ => let* p := of_result (sibling path filepath) in load_document p
     | [] => load_document path
     end) in
  on_heap (
    let* document :=
      (match relative_jsonptr with
       | _ :: _ => foldM walk_segment (VRef (this document)) (segments relative_jsonptr)
       | [] => ret (VRef (this document))
       end) in
    let* tag := new_object (ODict [(lit "raw", VStr raw_jsonptr)]) in
    setitem document (lit "__fragment") (VRef tag);;
    ret document).

Definition load_fragment (path raw_jsonptr : str) : M state value :=
  lru_cache key_eqb load_fragment_cache set_load_fragment_cache load_fragment_body
    (path, raw_jsonptr).

(** [lst[-1]] *)
Definition last_item {S} (l : list str) : M S str :=
  match last l with
  | Some x => ret x
  | None => raise IndexError
  end.

(** [iter_normalize], the recursion of [normalize]; [fuel] bounds its depth. *)
Fixpoint iter_normalize (fuel : nat) (doc : OpenApiDocument) (data : value)
    (source_path : list str) : M state json :=
  match fuel with
  | O => raise OutOfFuel
  | S fuel' =>
      match data with
      | VStr s => ret (JStr s)
      | VInt n => ret (JInt n)
      | VFloat f => ret (JFloat f)
      | VBool b => ret (JBool b)
      | VNone => raise TypeError
      | VRef a =>
          let* o := on_heap (deref a) in
          match o with
          | OList items =>
              (* ["$ref" in data] is a search of the list; [list.pop] takes
                 no string, and a list has no [keys] *)
              if existsb (fun v => match v with VStr s => str_eqb s (lit "$ref") | _ => false end) items
              then last_item (path doc);; raise TypeError
              else raise AttributeError
          | ODict entries =>
              let* data :=
                (match entries_get entries (lit "$ref") with
                 | Some _ =>
                     let* context := last_item (path doc) in
                     let* ref := on_heap (dict_pop a (lit "$ref")) in
                     let* jsonptr := str_of_value ref in
                     let* dereffed := load_fragment context jsonptr in
                     match dereffed with
                     | VRef d => on_heap (dict_update d (VRef a));; ret d
                     | _ => raise AttributeError
                     end
                 | None => ret a
                 end) in
              let* o := on_heap (deref data) in
              match o with
              | OList _ => raise AttributeError
              | ODict entries =>
                  let* result :=
                    mapM (fun key =>
                            let* value := on_heap (dict_getitem data key) in
                            match value with
                            | VRef x =>
                                let* o := on_heap (deref x) in
                                match o with
                                | ODict _ =>
                                    let* r := iter_normalize fuel' doc value (source_path ++ [key]) in
                                    ret (key, r)
                                | OList items =>
                                    let* rs :=
                                      mapM (fun '(index, item) =>
                                              iter_normalize fuel' doc item
                                                (source_path ++ [str_of_nat index]))
                                           (imap (fun index item => (index, item)) items) in
                                    ret (key, JList rs)
                                end
                            | VStr s => ret (key, JStr (strip s))
                            | VInt n => ret (key, JInt n)
                            | VFloat f => ret (key, JFloat f)
                            | VBool b => ret (key, JBool b)
                            | VNone => ret (key, JNull)
                            end)
                         (sorted (map fst entries)) in
                  ret (JDict result)
              end
          end
      end
  end.

(** [normalize(doc, source_path)] *)
Definition normalize (fuel : nat) (doc : OpenApiDocument) (source_path : list str)
  : M state json :=
  iter_normalize fuel doc (VRef (this doc)) [].

End Program.

(** ** Samples of the libraries, for the worked examples *)

(** No reference of the examples names a file: [pathlib] is not reached. *)
Definition no_pathlib (path filepath : str) : error + str := inl Unmodelled.

(** [merge_obj] of json_merge_patch (RFC 7386), which works in place on
    [result]; [fuel] bounds the nesting of the patch. *)
Fixpoint merge_obj (fuel : nat) (result obj : value) : M heap value :=
  match fuel with
  | O => raise OutOfFuel
  | S fuel' =>
      let* result_is_dict := isinstance_dict result in
      let* result :=
        (if result_is_dict : bool then ret result
         else let* a := new_object (ODict []) in ret (VRef a)) in
      match obj with
      | VRef o =>
          let* patch := deref o in
          match patch, result with
          | ODict items, VRef r =>
              foldM (fun _ '(key, value) =>
                       let* value_is_dict := isinstance_dict value in
                       if value_is_dict : bool then
                         let* target := deref r in
                         let found :=
                           match target with
                           | ODict es => entries_get es key
                           | OList _ => None
                           end in
                         let* target_is_dict :=
                           (match found with
                            | Some t => isinstance_dict t
                            | None => ret false
                            end) in
                         match found, target_is_dict with
                         | Some t, true => merge_obj fuel' t value;; ret tt
                         | _, _ =>
                             let* fresh := new_object (ODict []) in
                             setitem result key (VRef fresh);;
                             merge_obj fuel' (VRef fresh) value;;
                             ret tt
                         end
                       else
                         match value with
                         | VNone =>
                             let* target := deref r in
                             match target with
                             | ODict es => assign r (ODict (entries_del es key))
                             | OList _ => raise TypeError
                             end
                         | _ => setitem result key value
                         end)
                    tt items;;
              ret result
          | _, _ => ret obj
          end
      | _ => ret obj
      end
  end.

Definition sample_merge (base patch : value) : M heap value := merge_obj 64 base patch.

(** A run whose only file is [name]. *)
Definition single_file (name : str) (entries : list (str * json)) (p : str) : file :=
  if str_eqb p name then JsonFile entries else NoSuchFile.

(** [normalize(load(paths), [])], as [compare] calls it for each side. *)
Definition normalized (files : str -> file) (sibling : str -> str -> error + str)
    (mergepatch_merge : value -> value -> M heap value) (fuel : nat) (paths : list str)
  : M state json :=
  let* doc := (fun s => fst (load files mergepatch_merge paths s)) in
  normalize files sibling fuel doc [].

(** [d[key]] in a tree. *)
Fixpoint json_get (entries : list (str * json)) (key : str) : option json :=
  match entries with
  | [] => None
  | (k, v) :: entries' => if str_eqb k key then Some v else json_get entries' key
  end.

(** ** Vocabulary of the properties *)

(** The value [v] in the heap [h] is the tree [t]. *)
Inductive represents (h : heap) : value -> json -> Prop :=
| represents_null : represents h VNone JNull
| represents_bool b : represents h (VBool b) (JBool b)
| represents_int n : represents h (VInt n) (JInt n)
| represents_float f : represents h (VFloat f) (JFloat f)
| represents_str s : represents h (VStr s) (JStr s)
| represents_list a vs items :
    h !! a = Some (OList vs) ->
    Forall2 (represents h) vs items ->
    represents h (VRef a) (JList items)
| represents_dict a es entries :
    h !! a = Some (ODict es) ->
    Forall2 (fun e m => fst e = fst m /\ represents h (snd e) (snd m)) es entries ->
    represents h (VRef a) (JDict entries).

(** A string with no white space at either end. *)
Definition is_trimmed (s : str) : bool :=
  match s with
  | [] => true
  | c :: _ => negb (isspace c) && negb (isspace (List.last s c))
  end.

(** Keys in strictly ascending order. *)
Fixpoint ascending (keys : list str) : bool :=
  match keys with
  | k1 :: (k2 :: _) as rest => str_ltb k1 k2 && ascending rest
  | _ => true
  end.

Definition has_key (key : str) (keys : list str) : bool := existsb (str_eqb key) keys.

(** A canonical tree: the keys of every mapping sorted, every string leaf
    trimmed, no [$ref] key at any level. *)
Fixpoint canonical (t : json) : bool :=
  match t with
  | JStr s => is_trimmed s
  | JList items => forallb canonical items
  | JDict entries =>
      ascending (map fst entries)
      && negb (has_key (lit "$ref") (map fst entries))
      && forallb (fun e => canonical (snd e)) entries
  | _ => true
  end.

(** What the annotation of [iter_normalize] admits as the element of a list:
    a string, a number, a boolean or a mapping. *)
Definition is_element (t : json) : bool :=
  match t with
  | JNull | JList _ => false
  | _ => true
  end.

(** Every list of the tree holds such elements only. *)
Fixpoint elements_typed (t : json) : bool :=
  match t with
  | JList items => forallb (fun x => is_element x && elements_typed x) items
  | JDict entries => forallb (fun e => elements_typed (snd e)) entries
  | _ => true
  end.

Definition is_mapping (t : json) : bool :=
  match t with
  | JDict _ => true
  | _ => false
  end.

Section JsonInduction.
Variable P : json -> Prop.
Hypothesis Hnull : P JNull.
Hypothesis Hbool : forall b, P (JBool b).
Hypothesis Hint : forall n, P (JInt n).
Hypothesis Hfloat : forall f, P (JFloat f).
Hypothesis Hstr : forall s, P (JStr s).
Hypothesis Hlist : forall items, Forall P items -> P (JList items).
Hypothesis Hdict : forall entries, Forall (fun e => P (snd e)) entries -> P (JDict entries).

(** Induction on a tree, with the property of every child at hand. *)
Fixpoint json_induction (t : json) : P t :=
  match t with
  | JNull => Hnull
  | JBool b => Hbool b
  | JInt n => Hint n
  | JFloat f => Hfloat f
  | JStr s => Hstr s
  | JList items =>
      Hlist items
        ((fix go (l : list json) : Forall P l :=
            match l with
            | [] => List.Forall_nil P
            | x :: l' => List.Forall_cons P x l' (json_induction x) (go l')
            end) items)
  | JDict entries =>
      Hdict entries
        ((fix go (l : list (str * json)) : Forall (fun e => P (snd e)) l :=
            match l with
            | [] => List.Forall_nil _
            | e :: l' => List.Forall_cons _ e l' (json_induction (snd e)) (go l')
            end) entries)
  end.
End JsonInduction.

(** The nesting of a tree, a bound on the depth of [iter_normalize]. *)
Fixpoint depth (t : json) : nat :=
  match t with
  | JList items => S (fold_right (fun x n => Nat.max (depth x) n) O items)
  | JDict entries => S (fold_right (fun e n => Nat.max (depth (snd e)) n) O entries)
  | _ => 1%nat
  end.

(** The object at [a] is a [dict] that carries the key [__fragment]. *)
Definition tagged (h : heap) (a : addr) : Prop :=
  exists es, h !! a = Some (ODict es) /\ is_Some (entries_get es (lit "__fragment")).

(** Every memoized fragment is a tagged [dict]. *)
Definition fragments_ok (s : state) : Prop :=
  forall k v, In (k, v) (load_fragment_cache s) ->
    exists a, v = VRef a /\ tagged (objects s) a.

(** Every memoized document carries the path it was loaded from. *)
Definition documents_ok (s : state) : Prop :=
  forall p d, In (p, d) (load_document_cache s) -> path d = [p].

(** One call of the store, the resolver or the normalizer. *)
Inductive step (files : str -> file) (sibling : str -> str -> error + str)
  : state -> state -> Prop :=
| step_load_document p r s s' :
    load_document files p s = (r, s') -> step files sibling s s'
| step_load_fragment p raw r s s' :
    load_fragment files sibling p raw s = (r, s') -> step files sibling s s'
| step_normalize fuel doc source_path r s s' :
    normalize files sibling fuel doc source_path s = (r, s') -> step files sibling s s'.

(** Any number of such calls. *)
Inductive steps (files : str -> file) (sibling : str -> str -> error + str)
  : state -> state -> Prop :=
| steps_refl s : steps files sibling s s
| steps_step s1 s2 s3 :
    step files sibling s1 s2 -> steps files sibling s2 s3 -> steps files sibling s1 s3.

(** The path of the file a reference of [path] points into. *)
Definition target (sibling : str -> str -> error + str) (path raw_jsonptr : str) : error + str :=
  match fst (split_ref raw_jsonptr) with
  | _ :: _ => sibling path (fst (split_ref raw_jsonptr))
  | [] => inr path
  end.

(** The walk of [load_fragment] from a document along a pointer. *)
Definition walk (relative_jsonptr : str) (document : addr) : M heap value :=
  match relative_jsonptr with
  | _ :: _ => foldM walk_segment (VRef document) (segments relative_jsonptr)
  | [] => ret (VRef document)
  end.

(** ** Worked examples *)

Definition main_json : str := lit "main.json".

(** [{"a": {"$ref": "#/b", "x": 2}, "b": {"x": 1, "y": 3}}] *)
Definition override_document : list (str * json) :=
  [ (lit "a", JDict [ (lit "$ref", JStr (lit "#/b")); (lit "x", JInt 2) ]);
    (lit "b", JDict [ (lit "x", JInt 1); (lit "y", JInt 3) ]) ].

(** [{"a": [{"x": 1}]}] *)
Definition list_document : list (str * json) :=
  [ (lit "a", JList [ JDict [ (lit "x", JInt 1) ] ]) ].

(** [{"a": [{"0": "zero"}]}] *)
Definition list_document_keyed : list (str * json) :=
  [ (lit "a", JList [ JDict [ (lit "0", JDict [ (lit "v", JInt 7) ]) ] ]) ].

(** [{"a": {"b": {"hit": 2}}, "a/b": {"hit": 1}}] *)
Definition slash_document : list (str * json) :=
  [ (lit "a", JDict [ (lit "b", JDict [ (lit "hit", JInt 2) ]) ]);
    (lit "a/b", JDict [ (lit "hit", JInt 1) ]) ].

(** [{"a": [[1]]}] *)
Definition nested_list_document : list (str * json) :=
  [ (lit "a", JList [ JList [ JInt 1 ] ]) ].

(** [{"b": {}}], at every path. *)
Definition same_everywhere (p : str) : file := JsonFile [ (lit "b", JDict []) ].

(** [{"x": 1}] at [a.json], [{"y": 2}] at [b.json]. *)
Definition two_files (p : str) : file :=
  if str_eqb p (lit "a.json") then JsonFile [ (lit "x", JInt 1) ]
  else if str_eqb p (lit "b.json") then JsonFile [ (lit "y", JInt 2) ]
  else NoSuchFile.

(** [iter_normalize] returns the tree [t] it is given, and leaves the store
    as it was. *)
Definition fixed (files : str -> file) (sibling : str -> str -> error + str)
    (doc : OpenApiDocument) (t : json) : Prop :=
  forall fuel v source_path s,
    represents (objects s) v t ->
    canonical t = true -> elements_typed t = true -> is_element t = true ->
    (depth t <= fuel)%nat ->
    iter_normalize files sibling fuel doc v source_path s = (inr t, s).

(** The same of the elements of a list. *)
Definition fixed_inside (files : str -> file) (sibling : str -> str -> error + str)
    (doc : OpenApiDocument) (t : json) : Prop :=
  fixed files sibling doc t /\
  match t with
  | JList items => Forall (fixed files sibling doc) items
  | _ => True
  end.

(** [{"info": {"title": "t"}, "tags": ["a", {"n": 1}]}] *)
Definition canonical_document : list (str * json) :=
  [ (lit "info", JDict [ (lit "title", JStr (lit "t")) ]);
    (lit "tags", JList [ JStr (lit "a"); JDict [ (lit "n", JInt 1) ] ]) ].

(** No tag is lost from [h] to [h']. *)
Definition keeps_tags (h h' : heap) : Prop := forall a, tagged h a -> tagged h' a.

(** A heap computation that loses no tag. *)
Definition heap_safe {A} (m : M heap A) : Prop :=
  forall h r h', m h = (r, h') -> keeps_tags h h'.

(** A heap computation that only reads. *)
Definition heap_reads {A} (m : M heap A) : Prop :=
  forall h r h', m h = (r, h') -> h' = h.

Definition store_ok (s : state) : Prop := documents_ok s /\ fragments_ok s.

(** A computation that loses no tag and keeps the two tables sound. *)
Definition safe {A} (m : M state A) : Prop :=
  forall s r s', m s = (r, s') ->
    keeps_tags (objects s) (objects s') /\ (store_ok s -> store_ok s').


(** The member [key] of the [dict] that [v] refers to. *)
Definition member (s : state) (v : value) (key : str) : option value :=
  match v with
  | VRef a => match objects s !! a with
              | Some (ODict es) => entries_get es key
              | _ => None
              end
  | _ => None
  end.

(** ** Vocabulary of the further properties *)

(** The pointer that names the keys [k1], ..., [kn]: ["/k1/.../kn"]. *)
Definition pointer_of (keys : list str) : str := concat (map (cons SLASH) keys).

(** No two [/] in a row. *)
Fixpoint single_slashes (s : str) : bool :=
  match s with
  | c :: (d :: _) as rest => negb ((47 =? c) && (47 =? d)) && single_slashes rest
  | _ => true
  end.

(** The subtree of [t] under the keys [keys], through mappings only. *)
Fixpoint json_at (t : json) (keys : list str) : option json :=
  match keys with
  | [] => Some t
  | k :: keys' =>
      match t with
      | JDict entries =>
          match json_get entries k with
          | Some u => json_at u keys'
          | None => None
          end
      | _ => None
      end
  end.

(** One step of the pointer walk, read on the tree: what [walk_segment] does
    on the value that holds [t]. *)
Definition json_step (t : json) (segment : str) : error + json :=
  match t with
  | JDict entries =>
      match json_get entries segment with
      | Some u => inr u
      | None => inl KeyError
      end
  | JList items =>
      match int_of_str segment with
      | inl e => inl e
      | inr i =>
          let n := Z.of_nat (length items) in
          let j := (if i <? 0 then i + n else i)%Z in
          if ((0 <=? j) && (j <? n))%Z then
            match items !! Z.to_nat j with
            | Some (JDict entries) =>
                match json_get entries segment with
                | Some u => inr u
                | None => inl KeyError
                end
            | Some _ => inl AssertionError
            | None => inl IndexError
            end
          else inl IndexError
      end
  | _ => inl AssertionError
  end.

(** The walk along a list of segments, on the tree. *)
Fixpoint json_walk (t : json) (segs : list str) : error + json :=
  match segs with
  | [] => inr t
  | segment :: segs' =>
      match json_step t segment with
      | inr u => json_walk u segs'
      | inl e => inl e
      end
  end.

(** What a relative pointer names in the document [t]. *)
Definition json_resolve (t : json) (relative_jsonptr : str) : error + json :=
  match relative_jsonptr with
  | _ :: _ => json_walk t (segments relative_jsonptr)
  | [] => inr t
  end.


(** The place of the key [k] in a table, counted from the most recently used
    entry, and its value. *)
Fixpoint cache_rank {V} (k : str) (c : list (str * V)) : option (nat * V) :=
  match c with
  | [] => None
  | (k', v) :: c' =>
      if str_eqb k' k then Some (O, v)
      else match cache_rank k c' with
           | Some (i, v') => Some (S i, v')
           | None => None
           end
  end.

(** The store after [load_document] was called on each path of [qs] in turn,
    whatever each call returned or raised. *)
Definition after_loads (files : str -> file) (qs : list str) (s : state) : state :=
  fold_left (fun s q => snd (load_document files q s)) qs s.

(** Neither table of [functools.lru_cache] is over its size. *)
Definition tables_bounded (s : state) : Prop :=
  (length (load_document_cache s) <= maxsize)%nat /\
  (length (load_fragment_cache s) <= maxsize)%nat.

(** A computation that keeps the property [I] of the store. *)
Definition keeps (I : state -> Prop) {A} (m : M state A) : Prop :=
  forall s r s', m s = (r, s') -> I s -> I s'.

(** From [h] to [h'] the store has only grown: every object is still there,
    a list is what it was, a mapping is a mapping that has every key it had,
    but for [$ref]. *)
Definition extends (h h' : heap) : Prop :=
  (length h <= length h')%nat /\
  (forall a xs, h !! a = Some (OList xs) -> h' !! a = Some (OList xs)) /\
  (forall a es, h !! a = Some (ODict es) ->
     exists es', h' !! a = Some (ODict es') /\
       forall k, k <> lit "$ref" -> is_Some (entries_get es k) -> is_Some (entries_get es' k)).

(** A heap computation under which the store only grows. *)
Definition grows {A} (m : M heap A) : Prop :=
  forall h r h', m h = (r, h') -> extends h h'.

(** The same of a computation on the whole state. *)
Definition store_grows {A} (m : M state A) : Prop :=
  forall s r s', m s = (r, s') -> extends (objects s) (objects s').

(** Keys in order, each no smaller than the one before. *)
Fixpoint nondecreasing (keys : list str) : bool :=
  match keys with
  | k1 :: (k2 :: _) as rest => negb (str_ltb k2 k1) && nondecreasing rest
  | _ => true
  end.

(** The shape of what [normalize] builds: the keys of every mapping in
    order, and every string that is a member of a mapping trimmed ([member]
    tells whether [t] is a member of a mapping or an element of a list). *)
Fixpoint shaped (member : bool) (t : json) : bool :=
  match t with
  | JStr s => if member then is_trimmed s else true
  | JList items => forallb (shaped false) items
  | JDict entries =>
      nondecreasing (map fst entries) && forallb (fun e => shaped true (snd e)) entries
  | _ => true
  end.

Fixpoint insert_entry (e : str * json) (l : list (str * json)) : list (str * json) :=
  match l with
  | [] => [e]
  | e' :: l' => if str_ltb (fst e') (fst e) then e' :: insert_entry e l' else e :: l
  end.

(** The members of a mapping, in the order of their keys. *)
Fixpoint sort_entries (l : list (str * json)) : list (str * json) :=
  match l with
  | [] => []
  | e :: l' => insert_entry e (sort_entries l')
  end.

(** The canonical form of a tree without references: the members of every
    mapping in the order of their keys, every string that is a member of a
    mapping trimmed, lists in their order ([member] as for [shaped]). *)
Fixpoint form (member : bool) (t : json) : json :=
  match t with
  | JStr s => if member then JStr (strip s) else JStr s
  | JList items => JList (map (form false) items)
  | JDict entries => JDict (sort_entries (map (fun e => (fst e, form true (snd e))) entries))
  | other => other
  end.

Fixpoint distinct (keys : list str) : bool :=
  match keys with
  | [] => true
  | k :: rest => negb (has_key k rest) && distinct rest
  end.

(** A tree without references: no mapping has the key [$ref], and the keys
    of each mapping are distinct, as those of a [dict] are. *)
Fixpoint plain (t : json) : bool :=
  match t with
  | JList items => forallb plain items
  | JDict entries =>
      negb (has_key (lit "$ref") (map fst entries))
      && distinct (map fst entries)
      && forallb (fun e => plain (snd e)) entries
  | _ => true
  end.

(** [iter_normalize] returns the canonical form of the tree [t] it is given,
    and leaves the store as it was. *)
Definition formed (files : str -> file) (sibling : str -> str -> error + str)
    (doc : OpenApiDocument) (t : json) : Prop :=
  forall fuel v source_path s,
    represents (objects s) v t ->
    plain t = true -> elements_typed t = true -> is_element t = true ->
    (depth t <= fuel)%nat ->
    iter_normalize files sibling fuel doc v source_path s = (inr (form false t), s).

(** The same of the elements of a list. *)
Definition formed_inside (files : str -> file) (sibling : str -> str -> error + str)
    (doc : OpenApiDocument) (t : json) : Prop :=
  formed files sibling doc t /\
  match t with
  | JList items => Forall (formed files sibling doc) items
  | _ => True
  end.

(** [d.pop(key, None)] on a tree. *)
Fixpoint json_pop (entries : list (str * json)) (key : str) : list (str * json) :=
  match entries with
  | [] => []
  | (k, v) :: entries' => if str_eqb k key then entries' else (k, v) :: json_pop entries' key
  end.

(** The two pops of [compare]: the sections [definitions] and [parameters]
    are taken off the top of a tree. *)
Definition without_sections (t : json) : error + json :=
  match t with
  | JDict entries => inr (JDict (json_pop (json_pop entries (lit "definitions")) (lit "parameters")))
  | JList _ => inl TypeError
  | _ => inl AttributeError
  end.

(** [compare(old, new)], with [jsonpatch.make_patch] as [make_patch]. *)
Definition compare {P} (files : str -> file) (sibling : str -> str -> error + str)
    (mergepatch_merge : value -> value -> M heap value) (make_patch : json -> json -> P)
    (fuel : nat) (old new : list str) : M state P :=
  let* old_document := normalized files sibling mergepatch_merge fuel old in
  let* new_document := normalized files sibling mergepatch_merge fuel new in
  let* old_document := of_result (without_sections old_document) in
  let* new_document := of_result (without_sections new_document) in
  ret (make_patch old_document new_document).

(** [{"b": " x ", "a": [" y ", {"d": 1, "c": " z "}]}] *)
Definition untidy_document : list (str * json) :=
  [ (lit "b", JStr (lit " x "));
    (lit "a", JList [ JStr (lit " y ");
                      JDict [ (lit "d", JInt 1); (lit "c", JStr (lit " z ")) ] ]) ].

(** ** [main]: the loop over the operations *)

(** The inner loop: [should_ignore] once the walk over [filters.items()] has
    ended.  [not params.no_filter and definition["func"](diff)] calls the
    filter only when [--no-filter] is absent. *)
Fixpoint should_ignore (no_filter : bool) (registry : list (str * (diff_op -> error + bool)))
    (diff : diff_op) : error + bool :=
  match registry with
  | [] => inr false
  | (_, func) :: registry' =>
      match and_then (inr (negb no_filter)) (func diff) with
      | inl e => inl e
      | inr true => inr true
      | inr false => should_ignore no_filter registry' diff
      end
  end.

(** The outer loop: the operations printed, in the order of printing, and the
    exception that ended the loop, if any. *)
Fixpoint report (no_filter : bool) (registry : list (str * (diff_op -> error + bool)))
    (diffs : list diff_op) : list diff_op * option error :=
  match diffs with
  | [] => ([], None)
  | diff :: diffs' =>
      match should_ignore no_filter registry diff with
      | inl e => ([], Some e)
      | inr ignored =>
          let (printed, raised) := report no_filter registry diffs' in
          (if ignored then printed else diff :: printed, raised)
      end
  end.

(** Some filter of the registry holds of the operation. *)
Definition matches (registry : list (str * (diff_op -> error + bool))) (diff : diff_op) : bool :=
  existsb (fun entry => match snd entry diff with inr true => true | _ => false end) registry.

(** The operation has a [str] under ["path"], or no such key. *)
Definition has_str_path (diff : diff_op) : Prop := exists p, path_of diff = JStr p.

(** [{"a": {"$ref": "other.json#/b"}}] at [main.json], and at [other.json] a
    target that is itself a reference: [{"b": {"$ref": r}}]. *)
Definition chained_files (r : str) (p : str) : file :=
  if str_eqb p main_json then
    JsonFile [ (lit "a", JDict [ (lit "$ref", JStr (lit "other.json#/b")) ]) ]
  else if str_eqb p (lit "other.json") then
    JsonFile [ (lit "b", JDict [ (lit "$ref", JStr r) ]) ]
  else NoSuchFile.

(** * Properties *)

(** ** Strings *)

Lemma str_eqb_eq (a b : str) : str_eqb a b = true <-> a = b.
Proof.
  revert b; induction a as [|x a IH]; intros [|y b]; simpl; try (split; congruence).
  rewrite andb_true_iff, N.eqb_eq, IH. split; [intros [-> ->]; reflexivity | intros [= -> ->]; auto].
Qed.

Lemma str_eqb_refl (a : str) : str_eqb a a = true.
Proof. apply str_eqb_eq; reflexivity. Qed.

Lemma str_eqb_neq (a b : str) : str_eqb a b = false <-> a <> b.
Proof.
  rewrite <- str_eqb_eq. destruct (str_eqb a b); split; congruence.
Qed.

Lemma startswith_app (p s : str) : startswith p s = true <-> exists r, s = p ++ r.
Proof.
  revert s; induction p as [|c p IH]; intros s; simpl.
  - split; eauto.
  - destruct s as [|d s].
    + split; [discriminate | intros [r [=]]].
    + rewrite andb_true_iff, N.eqb_eq, IH. split.
      * intros [-> [r ->]]. eauto.
      * intros [r [= -> ->]]. eauto.
Qed.

Lemma contains_char (c : char) (s : str) : contains [c] s = true <-> In c s.
Proof.
  induction s as [|d s IH]; simpl.
  - split; [discriminate | tauto].
  - rewrite orb_true_iff, andb_true_r, N.eqb_eq, IH. split; intros [H | H]; auto.
Qed.

Lemma first_occurrence (c : char) (s : str) :
  In c s -> exists before after, s = before ++ c :: after /\ ~ In c before.
Proof.
  induction s as [|d s IH]; [intros [] |].
  intros Hin. destruct (N.eq_dec d c) as [-> | Hne].
  - exists [], s. split; [reflexivity | intros []].
  - destruct Hin as [-> | Hin]; [congruence |].
    destruct (IH Hin) as (before & after & -> & Hnot).
    exists (d :: before), after. split; [reflexivity |].
    intros [-> | H]; [congruence | auto].
Qed.

Lemma split_once_first (c : char) (before after : str) :
  ~ In c before -> split_once c (before ++ c :: after) = [before; after].
Proof.
  induction before as [|d before IH]; simpl; intros Hnot.
  - rewrite N.eqb_refl. reflexivity.
  - destruct (N.eqb_spec d c) as [-> | Hne]; [tauto |].
    rewrite IH by tauto. reflexivity.
Qed.

Lemma split_nonempty (c : char) (s : str) : exists seg segs, split c s = seg :: segs.
Proof.
  induction s as [|d s (seg & segs & IH)]; simpl; [eauto |].
  destruct (d =? c); [eauto |]. rewrite IH. eauto.
Qed.

Lemma split_length_one (c : char) (s : str) :
  length (split c s) = 1%nat <-> ~ In c s.
Proof.
  induction s as [|d s IH]; simpl.
  - split; [tauto | reflexivity].
  - destruct (split_nonempty c s) as (seg & segs & E).
    destruct (N.eqb_spec d c) as [-> | Hne].
    + rewrite E. simpl. split; [discriminate | tauto].
    + rewrite E in *. simpl in *. rewrite IH.
      split; [intros H [-> | H']; [congruence | tauto] | tauto].
Qed.

Lemma split_no_separator (c : char) (s : str) : ~ In c s -> split c s = [s].
Proof.
  induction s as [|d s IH]; simpl; intros Hnot; [reflexivity |].
  destruct (N.eqb_spec d c) as [-> | Hne]; [tauto |].
  rewrite IH by tauto. reflexivity.
Qed.

Lemma split_at_separator (c : char) (before after : str) :
  ~ In c before -> split c (before ++ c :: after) = before :: split c after.
Proof.
  induction before as [|d before IH]; simpl; intros Hnot.
  - rewrite N.eqb_refl. reflexivity.
  - destruct (N.eqb_spec d c) as [-> | Hne]; [tauto |].
    rewrite IH by tauto. reflexivity.
Qed.

(** ** [split_ref] *)

(** C3: [split_ref] follows its three rules in order: a leading [#] gives an
    empty file path and the rest as the fragment; otherwise the first [#]
    separates file path and fragment; otherwise the whole string is the file
    path.  It tells ["#/a/b"], ["other.json#/a/b"] and ["other.json"] apart. *)
Theorem split_ref_rules :
  (forall rest, split_ref (HASH :: rest) = ([], rest)) /\
  (forall jsonptr, hd_error jsonptr <> Some HASH -> In HASH jsonptr ->
     exists before after,
       jsonptr = before ++ HASH :: after /\ ~ In HASH before /\
       split_ref jsonptr = (before, after)) /\
  (forall jsonptr, ~ In HASH jsonptr -> split_ref jsonptr = (jsonptr, [])) /\
  split_ref (lit "#/a/b") = (lit "", lit "/a/b") /\
  split_ref (lit "other.json#/a/b") = (lit "other.json", lit "/a/b") /\
  split_ref (lit "other.json") = (lit "other.json", lit "").
Proof.
  repeat split; try reflexivity.
  - intros jsonptr Hhead Hin.
    destruct (first_occurrence HASH jsonptr Hin) as (before & after & -> & Hnot).
    exists before, after. repeat split; auto.
    unfold split_ref.
    destruct (startswith (lit "#") (before ++ HASH :: after)) eqn:Hs.
    + apply startswith_app in Hs. destruct Hs as [r Hr].
      rewrite Hr in Hhead. exfalso. apply Hhead. reflexivity.
    + change (lit "#") with [HASH].
      assert (Hc : contains [HASH] (before ++ HASH :: after) = true).
      { apply contains_char, in_or_app. right. left. reflexivity. }
      rewrite Hc, split_once_first by assumption. reflexivity.
  - intros jsonptr Hnot. unfold split_ref.
    destruct (startswith (lit "#") jsonptr) eqn:Hs.
    + apply startswith_app in Hs. destruct Hs as [r ->].
      exfalso. apply Hnot. left. reflexivity.
    + change (lit "#") with [HASH].
      destruct (contains [HASH] jsonptr) eqn:Hc; [| reflexivity].
      apply contains_char in Hc. tauto.
Qed.

Lemma split_ref_rules_witness :
  In HASH (lit "other.json#/a/b") /\
  exists before after,
    lit "other.json#/a/b" = before ++ HASH :: after /\ ~ In HASH before /\
    split_ref (lit "other.json#/a/b") = (before, after).
Proof.
  assert (Hin : In HASH (lit "other.json#/a/b")).
  { vm_compute. do 10 right. left. reflexivity. }
  split; [exact Hin |].
  apply (proj1 (proj2 split_ref_rules)); [discriminate | exact Hin].
Defined.

(** ** The filter [ignore-added-paths] *)

Lemma paths_entry (p : str) :
  startswith (lit "/paths/") p = true /\ length (split SLASH p) = 3%nat <->
  exists name, p = lit "/paths/" ++ name /\ ~ In SLASH name.
Proof.
  split.
  - intros [Hs Hl]. apply startswith_app in Hs. destruct Hs as [name ->].
    exists name. split; [reflexivity |].
    apply split_length_one.
    change (lit "/paths/" ++ name) with ([] ++ SLASH :: (lit "paths" ++ SLASH :: name)) in Hl.
    rewrite split_at_separator in Hl by (intros []).
    rewrite split_at_separator in Hl by (vm_compute; intuition discriminate).
    simpl in Hl. lia.
  - intros (name & -> & Hnot). split; [apply startswith_app; eauto |].
    change (lit "/paths/" ++ name) with ([] ++ SLASH :: (lit "paths" ++ SLASH :: name)).
    rewrite split_at_separator by (intros []).
    rewrite split_at_separator by (vm_compute; intuition discriminate).
    rewrite split_no_separator by assumption. reflexivity.
Qed.

(** C7: [ignore-added-paths] suppresses an operation exactly when its kind is
    ["add"], its path starts with ["/paths/"] and the path splits at ["/"]
    into exactly 3 segments; so ["/paths/newRoute"] is suppressed and
    ["/paths/newRoute/get"] is not. *)
Theorem ignore_added_paths_exactly :
  (forall diff,
     ignore_added_paths diff = inr true <->
     diff_get diff (lit "op") (JStr (lit "")) = JStr (lit "add") /\
     exists p, path_of diff = JStr p /\
               startswith (lit "/paths/") p = true /\
               length (split SLASH p) = 3%nat) /\
  filter_func filters (lit "ignore-added-paths") = Some ignore_added_paths /\
  ignore_added_paths
    [ (lit "op", JStr (lit "add")); (lit "path", JStr (lit "/paths/newRoute")) ] = inr true /\
  ignore_added_paths
    [ (lit "op", JStr (lit "add")); (lit "path", JStr (lit "/paths/newRoute/get")) ] = inr false.
Proof.
  split; [| split; [reflexivity | split; reflexivity]].
  intros diff. unfold ignore_added_paths, and_then, path_startswith, str_method, eq_str.
  split.
  - destruct (diff_get diff (lit "op") (JStr (lit ""))) as [| | | |op| |]; try discriminate.
    destruct (str_eqb op (lit "add")) eqn:Hop; [| discriminate].
    apply str_eqb_eq in Hop. subst op.
    destruct (path_of diff) as [| | | |p| |]; try discriminate.
    destruct (startswith (lit "/paths/") p) eqn:Hs; [| discriminate].
    intros [= Hl]. split; [reflexivity |].
    exists p. repeat split; auto. apply Nat.eqb_eq. assumption.
  - intros [Hop (p & Hp & Hs & Hl)].
    rewrite Hop, Hp, Hs, Hl. reflexivity.
Qed.

(** ** Computations *)

Lemma bind_inr {S A B} (m : M S A) (k : A -> M S B) s y s' :
  bind m k s = (inr y, s') ->
  exists x s1, m s = (inr x, s1) /\ k x s1 = (inr y, s').
Proof.
  unfold bind. destruct (m s) as [[e | x] s1]; [discriminate | eauto].
Qed.

Lemma on_heap_inv {A} (m : M heap A) s r s' :
  on_heap m s = (r, s') ->
  exists h, m (objects s) = (r, h) /\
            s' = mkState h (load_document_cache s) (load_fragment_cache s).
Proof.
  unfold on_heap. destruct (m (objects s)) as [r0 h]. intros [= <- <-]. eauto.
Qed.

Lemma cache_find_in {K V} (eqb : K -> K -> bool) k (c : list (K * V)) v :
  cache_find eqb k c = Some v -> exists k', In (k', v) c /\ eqb k' k = true.
Proof.
  induction c as [|[k' v'] c IH]; simpl; [discriminate |].
  destruct (eqb k' k) eqn:E.
  - intros [= ->]. eauto.
  - intros H. destruct (IH H) as (k'' & Hin & Heq). eauto.
Qed.

Lemma cache_remove_in {K V} (eqb : K -> K -> bool) k (c : list (K * V)) e :
  In e (cache_remove eqb k c) -> In e c.
Proof.
  induction c as [|[k' v'] c IH]; simpl; [tauto |].
  destruct (eqb k' k); simpl; intuition.
Qed.

Lemma cache_touch_in {K V} (eqb : K -> K -> bool) k v (c : list (K * V)) e :
  In e (cache_touch eqb k v c) -> e = (k, v) \/ In e c.
Proof.
  unfold cache_touch. simpl. intros [<- | H]; [auto |].
  right. eapply cache_remove_in; eauto.
Qed.

Lemma cache_store_in {K V} k v (c : list (K * V)) e :
  In e (cache_store k v c) -> e = (k, v) \/ In e c.
Proof.
  unfold cache_store. intros H.
  apply list_elem_of_In, (subseteq_take maxsize), list_elem_of_In in H.
  destruct H as [<- | H]; auto.
Qed.



(** ** The document store *)







(** ** [load] *)

(** C10: [load] pops the first element off the list it is given: after the
    call the caller's list is the tail of the original one, whatever the
    outcome of the call. *)
Theorem load_pops_first_path (files : str -> file)
    (mergepatch_merge : value -> value -> M heap value) (p : str) (ps : list str) (s : state) :
  snd (load files mergepatch_merge (p :: ps) s) = ps /\
  snd (load files mergepatch_merge (p :: ps) s) <> p :: ps.
Proof.
  split; [reflexivity |]. simpl. intros H.
  apply (f_equal (@length _)) in H. simpl in H. lia.
Qed.




(** ** The pointer walk of [load_fragment] *)

(** On a list, a segment is used twice: as the index of an element, and then
    as a key of that element. *)
Lemma walk_segment_on_list (h : heap) (l a : addr) (xs : list value) (segment : str)
    (i : nat) (es : list (str * value)) :
  h !! l = Some (OList xs) ->
  int_of_str segment = inr (Z.of_nat i) ->
  xs !! i = Some (VRef a) ->
  h !! a = Some (ODict es) ->
  walk_segment (VRef l) segment h =
  (match entries_get es segment with Some v => inr v | None => inl KeyError end, h).
Proof.
  intros Hl Hint Hi Ha.
  assert (Hlt : (i < length xs)%nat) by (eapply lookup_lt_Some; eauto).
  cbv beta iota delta [walk_segment bind isinstance_list isinstance_dict list_getitem
    dict_getitem deref of_result ret raise].
  rewrite Hl, Hint. simpl. rewrite Hl.
  replace (Z.of_nat i <? 0)%Z with false by (symmetry; apply Z.ltb_ge; lia).
  replace ((0 <=? Z.of_nat i) && (Z.of_nat i <? Z.of_nat (length xs)))%Z with true
    by (symmetry; apply andb_true_iff; split; [apply Z.leb_le | apply Z.ltb_lt]; lia).
  rewrite Nat2Z.id, Hi, Ha. simpl. rewrite Ha.
  destruct (entries_get es segment); reflexivity.
Qed.

(** C2, at the failing input: in [{"a": [{"x": 1}]}] the pointer [#/a/0]
    reaches the list, takes element 0, and then looks the segment ["0"] up
    in that element as a key, which raises [KeyError]; where the element has
    a key ["0"] the walk goes on into its value. *)
Theorem load_fragment_index_then_key :
  fst (load_fragment (single_file main_json list_document) no_pathlib
         main_json (lit "#/a/0") initial) = inl KeyError /\
  (let run := load_fragment (single_file main_json list_document_keyed) no_pathlib
                main_json (lit "#/a/0") initial in
   exists v, fst run = inr v /\ member (snd run) v (lit "v") = Some (VInt 7)).
Proof.
  split; [vm_compute; reflexivity |].
  eexists. split; vm_compute; reflexivity.
Qed.

Lemma replace_slashes_cons (skip : nat) (c : char) (s : str) :
  replace_from (lit "//") (lit "/") skip (c :: s) =
  match skip with
  | S k => replace_from (lit "//") (lit "/") k s
  | O =>
      if (47 =? c) && match s with [] => false | d :: _ => 47 =? d end
      then SLASH :: replace_from (lit "//") (lit "/") 1 s
      else c :: replace_from (lit "//") (lit "/") 0 s
  end.
Proof.
  destruct skip; [| reflexivity].
  destruct s as [|d s]; [| rewrite <- (andb_true_r (47 =? d))]; reflexivity.
Qed.

Lemma replace_no_slash (k : str) :
  ~ In SLASH k -> replace_from (lit "//") (lit "/") 0 k = k.
Proof.
  induction k as [|c k IH]; intros Hnot; [reflexivity |].
  rewrite replace_slashes_cons.
  destruct (N.eqb_spec 47 c) as [<- | Hne]; [exfalso; apply Hnot; left; reflexivity |].
  rewrite andb_false_l, IH; [reflexivity |]. intros H. apply Hnot. right. assumption.
Qed.

Lemma replace_before_double_slash (k1 k2 : str) :
  ~ In SLASH k1 -> ~ In SLASH k2 ->
  replace_from (lit "//") (lit "/") 0 (k1 ++ SLASH :: SLASH :: k2) = k1 ++ SLASH :: k2.
Proof.
  intros H1 H2. induction k1 as [|c k1 IH].
  - rewrite app_nil_l. rewrite replace_slashes_cons, N.eqb_refl, andb_true_l.
    rewrite replace_slashes_cons, replace_no_slash by assumption. reflexivity.
  - rewrite <- app_comm_cons, replace_slashes_cons.
    destruct (N.eqb_spec 47 c) as [<- | Hne]; [exfalso; apply H1; left; reflexivity |].
    rewrite andb_false_l, IH; [reflexivity |]. intros H. apply H1. right. assumption.
Qed.

Lemma replace_before_slash (k1 k2 : str) :
  ~ In SLASH k1 -> ~ In SLASH k2 ->
  replace_from (lit "//") (lit "/") 0 (k1 ++ SLASH :: k2) = k1 ++ SLASH :: k2.
Proof.
  intros H1 H2. induction k1 as [|c k1 IH].
  - rewrite app_nil_l. rewrite replace_slashes_cons.
    assert (Hk : match k2 with [] => false | d :: _ => 47 =? d end = false).
    { destruct k2 as [|d k2]; [reflexivity |]. apply N.eqb_neq.
      intros <-. apply H2. left. reflexivity. }
    rewrite Hk, andb_false_r, replace_no_slash by assumption. reflexivity.
  - rewrite <- app_comm_cons, replace_slashes_cons.
    destruct (N.eqb_spec 47 c) as [<- | Hne]; [exfalso; apply H1; left; reflexivity |].
    rewrite andb_false_l, IH; [reflexivity |]. intros H. apply H1. right. assumption.
Qed.

(** C4, as the code has it: a doubled [//] is replaced by a single [/]
    before the pointer is split, so it separates two segments just as a
    single [/] does: [/k1//k2] and [/k1/k2] both walk [k1], then [k2]. *)
Theorem double_slash_separates (k1 k2 : str) :
  k1 <> [] -> ~ In SLASH k1 -> ~ In SLASH k2 ->
  segments (lit "/" ++ k1 ++ lit "//" ++ k2) = [k1; k2] /\
  segments (lit "/" ++ k1 ++ lit "/" ++ k2) = [k1; k2].
Proof.
  intros Hne H1 H2. unfold segments, replace.
  change (lit "/" ++ k1 ++ lit "//" ++ k2) with (SLASH :: (k1 ++ SLASH :: SLASH :: k2)).
  change (lit "/" ++ k1 ++ lit "/" ++ k2) with (SLASH :: (k1 ++ SLASH :: k2)).
  assert (Hhead : forall rest,
             match k1 ++ rest with [] => false | d :: _ => 47 =? d end = false).
  { intros rest. destruct k1 as [|c k1]; [congruence |].
    apply N.eqb_neq. intros <-. apply H1. left. reflexivity. }
  split; rewrite replace_slashes_cons, Hhead, andb_false_r.
  - rewrite replace_before_double_slash by assumption.
    change (split SLASH (k1 ++ SLASH :: k2) = [k1; k2]).
    rewrite split_at_separator, split_no_separator by assumption. reflexivity.
  - rewrite replace_before_slash by assumption.
    change (split SLASH (k1 ++ SLASH :: k2) = [k1; k2]).
    rewrite split_at_separator, split_no_separator by assumption. reflexivity.
Qed.

Lemma double_slash_separates_witness :
  segments (lit "/a//b") = [lit "a"; lit "b"] /\
  segments (lit "/a/b") = [lit "a"; lit "b"].
Proof.
  apply (double_slash_separates (lit "a") (lit "b")).
  - discriminate.
  - vm_compute. intuition discriminate.
  - vm_compute. intuition discriminate.
Defined.

(** C4, as claimed, fails: in [{"a": {"b": {"hit": 2}}, "a/b": {"hit": 1}}]
    the pointer [#/a//b] is walked as the two segments ["a"] and ["b"] and
    reaches the member of ["a"], not the member whose key is ["a/b"]. *)
Lemma double_slash_is_no_escape :
  segments (lit "/a//b") = [lit "a"; lit "b"] /\
  (let run := load_fragment (single_file main_json slash_document) no_pathlib
                main_json (lit "#/a//b") initial in
   exists v, fst run = inr v /\ member (snd run) v (lit "hit") = Some (VInt 2)).
Proof.
  split; [reflexivity |].
  eexists. split; vm_compute; reflexivity.
Qed.

(** ** [normalize] *)

(** C1, as the code has it: in the document
    [{"a": {"$ref": "#/b", "x": 2}, "b": {"x": 1, "y": 3}}] the local key
    [x] wins over the referenced one, and the value at ["a"] also carries
    the tag that [load_fragment] wrote:
    [{"__fragment": {"raw": "#/b"}, "x": 2, "y": 3}]. *)
Theorem normalize_reference_override (sibling : str -> str -> error + str)
    (mergepatch_merge : value -> value -> M heap value) (k : nat) :
  exists entries s',
    normalized (single_file main_json override_document) sibling mergepatch_merge
      (3 + k) [main_json] initial = (inr (JDict entries), s') /\
    json_get entries (lit "a") =
    Some (JDict [ (lit "__fragment", JDict [ (lit "raw", JStr (lit "#/b")) ]);
                  (lit "x", JInt 2); (lit "y", JInt 3) ]).
Proof.
  eexists _, _. split; vm_compute; reflexivity.
Qed.

(** C1, as claimed, fails: the value at ["a"] is not exactly
    [{"x": 2, "y": 3}], it has the member ["__fragment"]. *)
Lemma reference_override_is_tagged :
  exists entries s' rest,
    normalized (single_file main_json override_document) no_pathlib sample_merge
      8 [main_json] initial = (inr (JDict entries), s') /\
    json_get entries (lit "a")
    = Some (JDict ((lit "__fragment", JDict [ (lit "raw", JStr (lit "#/b")) ]) :: rest)) /\
    json_get entries (lit "a") <> Some (JDict [ (lit "x", JInt 2); (lit "y", JInt 3) ]).
Proof.
  eexists _, _, _. split; [vm_compute; reflexivity |].
  split; [vm_compute; reflexivity | vm_compute; discriminate].
Qed.

Lemma str_ltb_irrefl (a : str) : str_ltb a a = false.
Proof.
  induction a as [|x a IH]; [reflexivity |].
  simpl. rewrite N.ltb_irrefl, N.eqb_refl, IH. reflexivity.
Qed.

Lemma str_ltb_trans (a b c : str) :
  str_ltb a b = true -> str_ltb b c = true -> str_ltb a c = true.
Proof.
  revert b c; induction a as [|x a IH]; intros [|y b] [|z c]; simpl; try congruence.
  rewrite !orb_true_iff, !andb_true_iff, !N.ltb_lt, !N.eqb_eq.
  intros [Hxy | [-> Hab]] [Hyz | [Heq Hbc]]; subst.
  - left. lia.
  - left. assumption.
  - left. assumption.
  - right. split; [reflexivity | eapply IH; eauto].
Qed.

Lemma str_ltb_neq (a b : str) : str_ltb a b = true -> a <> b.
Proof. intros H ->. rewrite str_ltb_irrefl in H. discriminate. Qed.

Lemma str_ltb_asym (a b : str) : str_ltb a b = true -> str_ltb b a = false.
Proof.
  intros H. destruct (str_ltb b a) eqn:E; [| reflexivity].
  rewrite <- (str_ltb_irrefl a). symmetry. eapply str_ltb_trans; eauto.
Qed.

Lemma ascending_tail (k : str) (keys : list str) :
  ascending (k :: keys) = true -> ascending keys = true.
Proof.
  destruct keys as [|k2 keys]; [reflexivity |].
  intros H. apply andb_true_iff in H. tauto.
Qed.

Lemma ascending_head (k : str) (keys : list str) :
  ascending (k :: keys) = true -> forall k', In k' keys -> str_ltb k k' = true.
Proof.
  revert k; induction keys as [|k2 keys IH]; intros k H k' Hin; [destruct Hin |].
  apply andb_true_iff in H. destruct H as [Hlt Hrest].
  destruct Hin as [<- | Hin]; [assumption |].
  eapply str_ltb_trans; [eassumption | apply IH; assumption].
Qed.

Lemma sorted_ascending (keys : list str) : ascending keys = true -> sorted keys = keys.
Proof.
  induction keys as [|k keys IH]; [reflexivity |].
  intros H. simpl. rewrite IH by (eapply ascending_tail; eauto).
  destruct keys as [|k2 keys]; [reflexivity |].
  simpl. rewrite (str_ltb_asym k k2); [reflexivity |].
  apply (ascending_head k (k2 :: keys) H). left. reflexivity.
Qed.

Lemma lstrip_head (s : str) :
  match s with [] => true | c :: _ => negb (isspace c) end = true -> lstrip s = s.
Proof.
  destruct s as [|c s]; [reflexivity |]. simpl.
  destruct (isspace c); [discriminate | reflexivity].
Qed.

Lemma strip_trimmed (s : str) : is_trimmed s = true -> strip s = s.
Proof.
  unfold is_trimmed, strip, rstrip. destruct s as [|c s]; [reflexivity |].
  intros H. apply andb_true_iff in H. destruct H as [Hfirst Hlast].
  rewrite (lstrip_head (c :: s)) by exact Hfirst.
  destruct (rev (c :: s)) as [|x r] eqn:E.
  - apply (f_equal (@rev _)) in E. rewrite rev_involutive in E. discriminate.
  - assert (Hs : c :: s = rev r ++ [x]).
    { rewrite <- (rev_involutive (c :: s)), E. reflexivity. }
    rewrite Hs, last_last in Hlast.
    rewrite (lstrip_head (x :: r)) by exact Hlast.
    rewrite <- E. apply rev_involutive.
Qed.

Lemma bind_eq {S A B} (m : M S A) (k : A -> M S B) s x s1 :
  m s = (inr x, s1) -> bind m k s = k x s1.
Proof. intros H. unfold bind. rewrite H. reflexivity. Qed.

Lemma mapM_pure {S A B} (f : A -> M S B) (xs : list A) (ys : list B) (s : S) :
  Forall2 (fun x y => f x s = (inr y, s)) xs ys -> mapM f xs s = (inr ys, s).
Proof.
  induction 1 as [|x y xs ys Hx _ IH]; [reflexivity |].
  simpl. rewrite (bind_eq _ _ _ _ _ Hx), (bind_eq _ _ _ _ _ IH). reflexivity.
Qed.

Lemma Forall2_In_impl {A B} (R R' : A -> B -> Prop) (l : list A) (k : list B) :
  Forall2 R l k ->
  (forall x y, In x l -> In y k -> R x y -> R' x y) ->
  Forall2 R' l k.
Proof.
  induction 1 as [|x y l k Hxy _ IH]; intros Himpl; constructor.
  - apply Himpl; simpl; auto.
  - apply IH. intros x' y' Hx Hy. apply Himpl; simpl; auto.
Qed.

Lemma on_heap_deref (s : state) (a : addr) (o : obj) :
  objects s !! a = Some o -> on_heap (deref a) s = (inr o, s).
Proof. destruct s as [h dc fc]. simpl. intros H. unfold on_heap, deref. simpl. rewrite H. reflexivity. Qed.

Lemma on_heap_dict_getitem (s : state) (a : addr) es (key : str) (v : value) :
  objects s !! a = Some (ODict es) -> entries_get es key = Some v ->
  on_heap (dict_getitem a key) s = (inr v, s).
Proof.
  destruct s as [h dc fc]. simpl. intros Ha Hget.
  unfold on_heap, dict_getitem, bind, deref. simpl. rewrite Ha, Hget. reflexivity.
Qed.

Lemma entries_get_absent (es : list (str * value)) (key : str) :
  has_key key (map fst es) = false -> entries_get es key = None.
Proof.
  induction es as [|[k v] es IH]; [reflexivity |].
  unfold has_key. simpl. intros H. apply orb_false_iff in H. destruct H as [Hk Hrest].
  apply str_eqb_neq in Hk.
  replace (str_eqb k key) with false by (symmetry; apply str_eqb_neq; congruence).
  apply IH. exact Hrest.
Qed.

Lemma entries_get_ascending (es : list (str * value)) (e : str * value) :
  ascending (map fst es) = true -> In e es -> entries_get es (fst e) = Some (snd e).
Proof.
  induction es as [|[k v] es IH]; [intros _ [] |].
  intros Hasc [<- | Hin]; simpl.
  - rewrite str_eqb_refl. reflexivity.
  - assert (Hlt : str_ltb k (fst e) = true).
    { apply (ascending_head k (map fst es) Hasc). apply in_map. assumption. }
    replace (str_eqb k (fst e)) with false
      by (symmetry; apply str_eqb_neq, str_ltb_neq; assumption).
    apply IH; [eapply ascending_tail; eauto | assumption].
Qed.

Lemma represents_keys (h : heap) (es : list (str * value)) (entries : list (str * json)) :
  Forall2 (fun e m => fst e = fst m /\ represents h (snd e) (snd m)) es entries ->
  map fst es = map fst entries.
Proof. induction 1 as [|e m es entries [Hk _] _ IH]; simpl; congruence. Qed.

Lemma depth_item (items : list json) (x : json) :
  In x items -> (depth x <= fold_right (fun x n => Nat.max (depth x) n) O items)%nat.
Proof.
  induction items as [|y items IH]; [intros [] |].
  simpl. intros [-> | H]; [lia |]. specialize (IH H). lia.
Qed.

Lemma depth_member (entries : list (str * json)) (m : str * json) :
  In m entries ->
  (depth (snd m) <= fold_right (fun e n => Nat.max (depth (snd e)) n) O entries)%nat.
Proof.
  induction entries as [|y entries IH]; [intros [] |].
  simpl. intros [-> | H]; [lia |]. specialize (IH H). lia.
Qed.

Section Canonical.
Variable files : str -> file.
Variable sibling : str -> str -> error + str.
Variable doc : OpenApiDocument.

Lemma fixed_items (fuel : nat) (source_path : list str) (s : state)
    (vs : list value) (items : list json) :
  Forall (fixed files sibling doc) items ->
  Forall2 (represents (objects s)) vs items ->
  canonical (JList items) = true ->
  elements_typed (JList items) = true ->
  (depth (JList items) <= S fuel)%nat ->
  forall number : nat -> nat,
    mapM (fun '(index, item) =>
            iter_normalize files sibling fuel doc item (source_path ++ [str_of_nat index]))
         (imap (fun index item => (number index, item)) vs) s
    = (inr items, s).
Proof.
  intros Hfixed Hrep Hcan Htyped Hdepth.
  simpl in Hcan, Htyped, Hdepth.
  rewrite forallb_forall in Hcan, Htyped. rewrite List.Forall_forall in Hfixed.
  assert (Hall : forall x, In x items -> (depth x <= fuel)%nat).
  { intros x Hx. pose proof (depth_item items x Hx). lia. }
  clear Hdepth. induction Hrep as [|v x vs items Hv _ IH]; intros number; [reflexivity |].
  simpl.
  assert (Hx : In x (x :: items)) by (left; reflexivity).
  specialize (Htyped x Hx) as Hxt. apply andb_true_iff in Hxt. destruct Hxt as [Hel Hxt].
  rewrite (bind_eq _ _ _ _ _
             (Hfixed x Hx fuel v _ s Hv (Hcan x Hx) Hxt Hel (Hall x Hx))).
  rewrite (bind_eq _ _ _ _ _ (IH
             (fun y Hy => Hfixed y (or_intror Hy))
             (fun y Hy => Hcan y (or_intror Hy))
             (fun y Hy => Htyped y (or_intror Hy))
             (fun y Hy => Hall y (or_intror Hy))
             (number ∘ S))).
  reflexivity.
Qed.
Lemma fixed_everywhere (t : json) : fixed_inside files sibling doc t.
Proof.
  induction t as [| b | n | f | x | items IH | entries IH] using json_induction.
  - split; [| exact I]. intros fuel v sp s _ _ _ Hel. discriminate.
  - split; [| exact I]. intros fuel v sp s Hrep _ _ _ Hd. inversion Hrep; subst.
    destruct fuel; [simpl in Hd; lia | reflexivity].
  - split; [| exact I]. intros fuel v sp s Hrep _ _ _ Hd. inversion Hrep; subst.
    destruct fuel; [simpl in Hd; lia | reflexivity].
  - split; [| exact I]. intros fuel v sp s Hrep _ _ _ Hd. inversion Hrep; subst.
    destruct fuel; [simpl in Hd; lia | reflexivity].
  - split; [| exact I]. intros fuel v sp s Hrep _ _ _ Hd. inversion Hrep; subst.
    destruct fuel; [simpl in Hd; lia | reflexivity].
  - split; [intros fuel v sp s _ _ _ Hel; discriminate |].
    eapply List.Forall_impl; [| exact IH]. intros x [Hx _]. exact Hx.
  - split; [| exact I].
    intros fuel v sp s Hrep Hcan Htyped _ Hdepth.
    inversion Hrep as [ | | | | | | a es entries' Ha Hmembers]; subst.
    destruct fuel as [|fuel]; [simpl in Hdepth; lia |].
    simpl in Hcan, Htyped, Hdepth.
    apply andb_true_iff in Hcan. destruct Hcan as [Hcan Hvalues].
    apply andb_true_iff in Hcan. destruct Hcan as [Hasc Hnoref].
    apply negb_true_iff in Hnoref.
    pose proof (represents_keys _ _ _ Hmembers) as Hkeys.
    rewrite forallb_forall in Hvalues, Htyped. rewrite List.Forall_forall in IH.
    cbn [iter_normalize].
    rewrite (bind_eq _ _ _ _ _ (on_heap_deref s a _ Ha)).
    rewrite (entries_get_absent es (lit "$ref")) by (rewrite Hkeys; assumption).
    erewrite bind_eq by reflexivity.
    rewrite (bind_eq _ _ _ _ _ (on_heap_deref s a _ Ha)).
    rewrite sorted_ascending by (rewrite Hkeys; assumption).
    erewrite bind_eq; [reflexivity |].
    apply mapM_pure, Forall2_fmap_l.
    eapply Forall2_In_impl; [exact Hmembers |].
    intros [ke ve] [km tm] Hine Hinm [Hk Hv]. simpl in Hk, Hv. subst km.
    unfold compose. simpl fst.
    assert (Hasc' : ascending (map fst es) = true) by (rewrite Hkeys; assumption).
    rewrite (bind_eq _ _ _ _ _
               (on_heap_dict_getitem s a es ke ve Ha (entries_get_ascending es (ke, ve) Hasc' Hine))).
    specialize (Hvalues _ Hinm). specialize (Htyped _ Hinm). specialize (IH _ Hinm).
    pose proof (depth_member entries _ Hinm) as Hd.
    simpl in Hvalues, Htyped, IH, Hd. destruct IH as [Hfixed Hitems].
    inversion Hv as [ | | | | str | l vs items Hl Hvs | d ds members Hd' Hds]; subst;
      try reflexivity.
    + simpl in Hvalues. rewrite strip_trimmed by assumption. reflexivity.
    + rewrite (bind_eq _ _ _ _ _ (on_heap_deref s l _ Hl)).
      rewrite (bind_eq _ _ _ _ _
                 (fixed_items fuel sp s vs items Hitems Hvs Hvalues Htyped
                    ltac:(lia) (fun index => index))).
      reflexivity.
    + rewrite (bind_eq _ _ _ _ _ (on_heap_deref s d _ Hd')).
      rewrite (bind_eq _ _ _ _ _
                 (Hfixed fuel (VRef d) (sp ++ [ke]) s Hv Hvalues Htyped eq_refl ltac:(lia))).
      reflexivity.
Qed.

(** C8, as the code has it: on a canonical document (the keys of every
    mapping sorted, every string leaf trimmed, no [$ref] key at any level)
    whose lists hold strings, numbers, booleans and mappings only,
    [normalize] returns a tree equal to its input and changes nothing in the
    store; a recursion depth of the nesting of the tree is enough. *)
Theorem normalize_canonical_fixed (s : state) (t : json) (source_path : list str) (k : nat) :
  represents (objects s) (VRef (this doc)) t ->
  is_mapping t = true ->
  canonical t = true ->
  elements_typed t = true ->
  normalize files sibling (depth t + k) doc source_path s = (inr t, s).
Proof.
  intros Hrep Hmap Hcan Htyped. unfold normalize.
  apply (proj1 (fixed_everywhere t)); auto; [| lia].
  destruct t; try discriminate. reflexivity.
Qed.

End Canonical.

Lemma normalize_canonical_fixed_witness :
  exists doc s,
    load_document (single_file main_json canonical_document) main_json initial = (inr doc, s) /\
    normalize (single_file main_json canonical_document) no_pathlib
      (depth (JDict canonical_document) + 0) doc [] s = (inr (JDict canonical_document), s).
Proof.
  eexists _, _. split; [vm_compute; reflexivity |].
  apply normalize_canonical_fixed; try reflexivity.
  repeat (econstructor; simpl; try reflexivity).
Defined.

(** C8, as claimed, fails: [{"a": [[1]]}] is canonical (keys sorted, no
    string to trim, no [$ref]), and [normalize] raises on the list inside
    the list instead of returning the tree. *)
Lemma canonical_nested_list_raises :
  canonical (JDict nested_list_document) = true /\
  exists doc s,
    load_document (single_file main_json nested_list_document) main_json initial = (inr doc, s) /\
    represents (objects s) (VRef (this doc)) (JDict nested_list_document) /\
    (forall k, fst (normalize (single_file main_json nested_list_document) no_pathlib
                      (2 + k) doc [] s) = inl AttributeError) /\
    (forall fuel, fst (normalize (single_file main_json nested_list_document) no_pathlib
                         fuel doc [] s) <> inr (JDict nested_list_document)).
Proof.
  split; [reflexivity |].
  eexists _, _. split; [vm_compute; reflexivity |]. split; [| split].
  - repeat (econstructor; simpl; try reflexivity).
  - intros k. vm_compute. reflexivity.
  - intros [|[|k]]; vm_compute; discriminate.
Qed.

(** ** Tags are never lost *)

Lemma keeps_tags_refl (h : heap) : keeps_tags h h.
Proof. intros a H. exact H. Qed.

Lemma keeps_tags_trans (h1 h2 h3 : heap) :
  keeps_tags h1 h2 -> keeps_tags h2 h3 -> keeps_tags h1 h3.
Proof. intros H12 H23 a H. auto. Qed.

Lemma keeps_tags_app (h : heap) (new : list obj) : keeps_tags h (h ++ new).
Proof.
  intros a (es & Ha & Hk). exists es. split; [| exact Hk].
  apply lookup_app_l_Some. exact Ha.
Qed.

Lemma entries_set_present (es : list (str * value)) (key : str) (x : value) :
  entries_get (entries_set es key x) key = Some x.
Proof.
  induction es as [|[k v] es IH]; simpl.
  - rewrite str_eqb_refl. reflexivity.
  - destruct (str_eqb k key) eqn:E; simpl; rewrite E; [reflexivity | exact IH].
Qed.

Lemma entries_set_keeps (es : list (str * value)) (key : str) (x : value) (k0 : str) :
  is_Some (entries_get es k0) -> is_Some (entries_get (entries_set es key x) k0).
Proof.
  induction es as [|[k v] es IH]; simpl; [intros [? [=]] |].
  destruct (str_eqb k key) eqn:E; simpl; destruct (str_eqb k k0); eauto.
Qed.

Lemma entries_del_other (es : list (str * value)) (key k0 : str) :
  key <> k0 -> entries_get (entries_del es key) k0 = entries_get es k0.
Proof.
  intros Hne. induction es as [|[k v] es IH]; [reflexivity |]. simpl.
  destruct (str_eqb k key) eqn:E.
  - apply str_eqb_eq in E. subst k.
    replace (str_eqb key k0) with false by (symmetry; apply str_eqb_neq; assumption).
    reflexivity.
  - simpl. rewrite IH. reflexivity.
Qed.

Lemma keeps_tags_insert (h : heap) (a : addr) (es es' : list (str * value)) :
  h !! a = Some (ODict es) ->
  (is_Some (entries_get es (lit "__fragment")) -> is_Some (entries_get es' (lit "__fragment"))) ->
  keeps_tags h (<[a := ODict es']> h).
Proof.
  intros Ha Hkeep b (esb & Hb & Hk).
  destruct (decide (a = b)) as [<- | Hne].
  - exists es'. split.
    + apply list_lookup_insert_eq. eapply lookup_lt_Some; eauto.
    + apply Hkeep. rewrite Ha in Hb. injection Hb as <-. exact Hk.
  - exists esb. split; [| exact Hk]. rewrite list_lookup_insert_ne by assumption. exact Hb.
Qed.

Lemma heap_safe_ret {A} (x : A) : heap_safe (ret x).
Proof. intros h r h' [= _ <-]. apply keeps_tags_refl. Qed.

Lemma heap_safe_raise {A} (e : error) : heap_safe (@raise heap A e).
Proof. intros h r h' [= _ <-]. apply keeps_tags_refl. Qed.

Lemma heap_safe_bind {A B} (m : M heap A) (k : A -> M heap B) :
  heap_safe m -> (forall x, heap_safe (k x)) -> heap_safe (bind m k).
Proof.
  intros Hm Hk h r h'. unfold bind. destruct (m h) as [[e | x] h1] eqn:E.
  - intros [= _ <-]. eapply Hm; eauto.
  - intros H. eapply keeps_tags_trans; [eapply Hm | eapply Hk]; eauto.
Qed.

Lemma heap_reads_safe {A} (m : M heap A) : heap_reads m -> heap_safe m.
Proof. intros Hm h r h' H. rewrite (Hm _ _ _ H). apply keeps_tags_refl. Qed.

Lemma heap_reads_ret {A} (x : A) : heap_reads (ret x).
Proof. intros h r h' [= _ <-]. reflexivity. Qed.

Lemma heap_reads_raise {A} (e : error) : heap_reads (@raise heap A e).
Proof. intros h r h' [= _ <-]. reflexivity. Qed.

Lemma heap_reads_bind {A B} (m : M heap A) (k : A -> M heap B) :
  heap_reads m -> (forall x, heap_reads (k x)) -> heap_reads (bind m k).
Proof.
  intros Hm Hk h r h'. unfold bind. destruct (m h) as [[e | x] h1] eqn:E.
  - intros [= _ <-]. eapply Hm; eauto.
  - intros H. rewrite (Hk _ _ _ _ H). eapply Hm; eauto.
Qed.

Lemma heap_reads_deref (a : addr) : heap_reads (deref a).
Proof. intros h r h'. unfold deref. destruct (h !! a); intros [= _ <-]; reflexivity. Qed.

Lemma heap_reads_of_result {A} (r : error + A) : heap_reads (of_result r).
Proof. destruct r; [apply heap_reads_raise | apply heap_reads_ret]. Qed.

Ltac reads :=
  repeat first
    [ apply heap_reads_ret | apply heap_reads_raise | apply heap_reads_deref
    | apply heap_reads_of_result
    | apply heap_reads_bind; [| intros ?]
    | match goal with
      | |- heap_reads (match ?x with _ => _ end) => destruct x
      end ].

Lemma heap_reads_isinstance_dict (v : value) : heap_reads (isinstance_dict v).
Proof. unfold isinstance_dict. reads. Qed.

Lemma heap_reads_isinstance_list (v : value) : heap_reads (isinstance_list v).
Proof. unfold isinstance_list. reads. Qed.

Lemma heap_reads_dict_getitem (a : addr) (key : str) : heap_reads (dict_getitem a key).
Proof. unfold dict_getitem. reads. Qed.

Lemma heap_reads_list_getitem (a : addr) (i : Z) : heap_reads (list_getitem a i).
Proof. unfold list_getitem. reads. Qed.

Lemma heap_reads_walk_segment (document : value) (segment : str) :
  heap_reads (walk_segment document segment).
Proof.
  unfold walk_segment.
  apply heap_reads_bind; [apply heap_reads_isinstance_list | intros is_list].
  apply heap_reads_bind.
  - destruct is_list; [| apply heap_reads_ret].
    apply heap_reads_bind; [apply heap_reads_of_result | intros i].
    destruct document; try apply heap_reads_raise. apply heap_reads_list_getitem.
  - intros v. apply heap_reads_bind; [apply heap_reads_isinstance_dict | intros is_dict].
    destruct is_dict; [| apply heap_reads_raise].
    destruct v; try apply heap_reads_raise. apply heap_reads_dict_getitem.
Qed.

Lemma heap_reads_foldM {A B} (f : B -> A -> M heap B) (xs : list A) :
  (forall acc x, heap_reads (f acc x)) -> forall acc, heap_reads (foldM f acc xs).
Proof.
  intros Hf. induction xs as [|x xs IH]; intros acc; simpl.
  - apply heap_reads_ret.
  - apply heap_reads_bind; [apply Hf | intros acc'; apply IH].
Qed.

Lemma heap_reads_walk (relative_jsonptr : str) (document : addr) :
  heap_reads (walk relative_jsonptr document).
Proof.
  unfold walk. destruct relative_jsonptr; [apply heap_reads_ret |].
  apply heap_reads_foldM. intros acc x. apply heap_reads_walk_segment.
Qed.

Lemma heap_safe_new_object (o : obj) : heap_safe (new_object o).
Proof. intros h r h' [= _ <-]. apply keeps_tags_app. Qed.

Lemma setitem_inr (v : value) (key : str) (x : value) (h h' : heap) :
  setitem v key x h = (inr tt, h') ->
  exists a es, v = VRef a /\ h !! a = Some (ODict es) /\
               h' = <[a := ODict (entries_set es key x)]> h.
Proof.
  unfold setitem. destruct v; try discriminate.
  unfold bind, deref. destruct (h !! a) as [[es | xs] |] eqn:Ha; try discriminate.
  intros [= <-]. eauto.
Qed.

Lemma heap_safe_setitem (v : value) (key : str) (x : value) : heap_safe (setitem v key x).
Proof.
  intros h r h' H. unfold setitem in H. destruct v; try (injection H as _ <-; apply keeps_tags_refl).
  unfold bind, deref in H. destruct (h !! a) as [[es | xs] |] eqn:Ha;
    try (injection H as _ <-; apply keeps_tags_refl).
  injection H as _ <-. eapply keeps_tags_insert; [eassumption |].
  apply entries_set_keeps.
Qed.

Lemma heap_safe_dict_pop (a : addr) (key : str) :
  key <> lit "__fragment" -> heap_safe (dict_pop a key).
Proof.
  intros Hne. unfold dict_pop.
  apply heap_safe_bind; [apply heap_reads_safe, heap_reads_dict_getitem | intros v].
  intros h r h' H. unfold bind, deref in H.
  destruct (h !! a) as [[es | xs] |] eqn:Ha; try (injection H as _ <-; apply keeps_tags_refl).
  injection H as _ <-. eapply keeps_tags_insert; [eassumption |].
  rewrite entries_del_other by assumption. auto.
Qed.

Lemma heap_safe_foldM {A B} (f : B -> A -> M heap B) (xs : list A) :
  (forall acc x, heap_safe (f acc x)) -> forall acc, heap_safe (foldM f acc xs).
Proof.
  intros Hf. induction xs as [|x xs IH]; intros acc; simpl.
  - apply heap_safe_ret.
  - apply heap_safe_bind; [apply Hf | intros acc'; apply IH].
Qed.

Lemma heap_safe_mapM {A B} (f : A -> M heap B) (xs : list A) :
  (forall x, heap_safe (f x)) -> heap_safe (mapM f xs).
Proof.
  intros Hf. induction xs as [|x xs IH]; simpl.
  - apply heap_safe_ret.
  - apply heap_safe_bind; [apply Hf | intros y].
    apply heap_safe_bind; [apply IH | intros ys; apply heap_safe_ret].
Qed.

Lemma heap_safe_dict_update (a : addr) (other : value) : heap_safe (dict_update a other).
Proof.
  unfold dict_update.
  apply heap_safe_bind; [apply heap_reads_safe, heap_reads_deref | intros target].
  destruct target; [| apply heap_safe_raise].
  destruct other as [| | | | | b]; try apply heap_safe_raise.
  apply heap_safe_bind; [apply heap_reads_safe, heap_reads_deref | intros o].
  destruct o as [es | xs]; [| apply heap_safe_raise].
  destruct (a =? b)%nat; [apply heap_safe_ret |].
  apply heap_safe_foldM. intros [] [k v]. apply heap_safe_setitem.
Qed.

Lemma heap_safe_alloc (t : json) : heap_safe (alloc t).
Proof.
  induction t as [| b | n | f | x | items IH | entries IH] using json_induction;
    try apply heap_safe_ret.
  - cbn [alloc]. apply heap_safe_bind.
    + induction IH as [|x items Hx _ IHitems]; simpl; [apply heap_safe_ret |].
      apply heap_safe_bind; [exact Hx | intros y].
      apply heap_safe_bind; [exact IHitems | intros ys; apply heap_safe_ret].
    + intros vs. apply heap_safe_bind; [apply heap_safe_new_object | intros a; apply heap_safe_ret].
  - cbn [alloc]. apply heap_safe_bind.
    + induction IH as [|x entries Hx _ IHentries]; simpl; [apply heap_safe_ret |].
      apply heap_safe_bind.
      * apply heap_safe_bind; [exact Hx | intros v; apply heap_safe_ret].
      * intros y. apply heap_safe_bind; [exact IHentries | intros ys; apply heap_safe_ret].
    + intros es. apply heap_safe_bind; [apply heap_safe_new_object | intros a; apply heap_safe_ret].
Qed.

Lemma store_ok_heap (s : state) (h : heap) :
  keeps_tags (objects s) h -> store_ok s ->
  store_ok (mkState h (load_document_cache s) (load_fragment_cache s)).
Proof.
  intros Hkeep [Hdocs Hfrags]. split; [exact Hdocs |].
  intros k v Hin. destruct (Hfrags k v Hin) as (a & -> & Ha). exists a. split; auto.
Qed.

Lemma safe_ret {A} (x : A) : safe (ret x).
Proof. intros s r s' [= _ <-]. split; [apply keeps_tags_refl | auto]. Qed.

Lemma safe_raise {A} (e : error) : safe (@raise state A e).
Proof. intros s r s' [= _ <-]. split; [apply keeps_tags_refl | auto]. Qed.

Lemma safe_of_result {A} (r : error + A) : safe (of_result r).
Proof. destruct r; [apply safe_raise | apply safe_ret]. Qed.

Lemma safe_bind {A B} (m : M state A) (k : A -> M state B) :
  safe m -> (forall x, safe (k x)) -> safe (bind m k).
Proof.
  intros Hm Hk s r s'. unfold bind. destruct (m s) as [[e | x] s1] eqn:E.
  - intros [= _ <-]. eapply Hm; eauto.
  - intros H. destruct (Hm _ _ _ E) as [H1 H2]. destruct (Hk _ _ _ _ H) as [H3 H4].
    split; [eapply keeps_tags_trans; eauto | auto].
Qed.

Lemma safe_on_heap {A} (m : M heap A) : heap_safe m -> safe (on_heap m).
Proof.
  intros Hm s r s' H. apply on_heap_inv in H. destruct H as (h & Hrun & ->).
  pose proof (Hm _ _ _ Hrun) as Hkeep. split; [exact Hkeep |].
  apply store_ok_heap. exact Hkeep.
Qed.

Lemma safe_foldM {A B} (f : B -> A -> M state B) (xs : list A) :
  (forall acc x, safe (f acc x)) -> forall acc, safe (foldM f acc xs).
Proof.
  intros Hf. induction xs as [|x xs IH]; intros acc; simpl.
  - apply safe_ret.
  - apply safe_bind; [apply Hf | intros acc'; apply IH].
Qed.

Lemma safe_mapM {A B} (f : A -> M state B) (xs : list A) :
  (forall x, safe (f x)) -> safe (mapM f xs).
Proof.
  intros Hf. induction xs as [|x xs IH]; simpl.
  - apply safe_ret.
  - apply safe_bind; [apply Hf | intros y].
    apply safe_bind; [apply IH | intros ys; apply safe_ret].
Qed.

Lemma lru_cache_inv {K V} (eqb : K -> K -> bool) table set_table
    (body : K -> M state V) (k : K) (s : state) r s' :
  lru_cache eqb table set_table body k s = (r, s') ->
  (exists v, cache_find eqb k (table s) = Some v /\ r = inr v /\
             s' = set_table (cache_touch eqb k v (table s)) s) \/
  (cache_find eqb k (table s) = None /\
   exists s1, body k s = (r, s1) /\
              s' = match r with
                   | inr v => set_table (cache_store k v (table s1)) s1
                   | inl _ => s1
                   end).
Proof.
  unfold lru_cache. destruct (cache_find eqb k (table s)) as [v |].
  - intros [= <- <-]. left. eauto.
  - destruct (body k s) as [[e | v] s1]; intros [= <- <-]; right; eauto.
Qed.

Section Safety.
Variable files : str -> file.
Variable sibling : str -> str -> error + str.

Lemma safe_load_document_body (p : str) : safe (load_document_body files p).
Proof.
  unfold load_document_body. destruct (files p) as [| | | entries].
  - destruct (contains (lit "/examples/") p); [| apply safe_raise].
    apply safe_on_heap. unfold new_document.
    apply heap_safe_bind; [apply heap_safe_new_object | intros a; apply heap_safe_ret].
  - apply safe_raise.
  - apply safe_raise.
  - apply safe_on_heap. apply heap_safe_bind.
    + apply heap_safe_mapM. intros e.
      apply heap_safe_bind; [apply heap_safe_alloc | intros v; apply heap_safe_ret].
    + intros es. unfold new_document.
      apply heap_safe_bind; [apply heap_safe_new_object | intros a; apply heap_safe_ret].
Qed.

Lemma load_document_body_path (p : str) s doc s' :
  load_document_body files p s = (inr doc, s') ->
  path doc = [p] /\ load_document_cache s' = load_document_cache s
  /\ load_fragment_cache s' = load_fragment_cache s.
Proof.
  unfold load_document_body. intros Hbody.
  destruct (files p) as [| | | entries].
  - destruct (contains (lit "/examples/") p); [| discriminate].
    apply on_heap_inv in Hbody. destruct Hbody as (h & Hrun & ->).
    injection Hrun as <- _. repeat split.
  - discriminate.
  - discriminate.
  - apply on_heap_inv in Hbody. destruct Hbody as (h & Hrun & ->).
    apply bind_inr in Hrun. destruct Hrun as (es & h1 & _ & Hnew).
    injection Hnew as <- _. repeat split.
Qed.

Lemma safe_load_document (p : str) : safe (load_document files p).
Proof.
  intros s r s' H. apply lru_cache_inv in H.
  destruct H as [(d & Hfind & -> & ->) | (Hmiss & s1 & Hbody & ->)].
  - split; [apply keeps_tags_refl |]. intros [Hdocs Hfrags]. split; [| exact Hfrags].
    destruct (cache_find_in _ _ _ _ Hfind) as (p' & Hin & Heq).
    apply str_eqb_eq in Heq. subst p'.
    intros q d' Hq. apply cache_touch_in in Hq.
    destruct Hq as [[= -> ->] | Hq]; [apply (Hdocs _ _ Hin) | apply (Hdocs _ _ Hq)].
  - destruct (safe_load_document_body p _ _ _ Hbody) as [Hkeep Hok].
    destruct r as [e | d]; [split; assumption |].
    split; [exact Hkeep |]. intros Hs. destruct (Hok Hs) as [Hdocs Hfrags].
    destruct (load_document_body_path _ _ _ _ Hbody) as (Hpath & _ & _).
    split; [| exact Hfrags].
    intros q d' Hq. apply cache_store_in in Hq.
    destruct Hq as [[= -> ->] | Hq]; [exact Hpath | apply (Hdocs _ _ Hq)].
Qed.



Lemma safe_load_fragment_body (key : str * str) : safe (load_fragment_body files sibling key).
Proof.
  unfold load_fragment_body. destruct key as [p raw].
  destruct (split_ref raw) as [filepath relative_jsonptr].
  apply safe_bind.
  - destruct filepath; [apply safe_load_document |].
    apply safe_bind; [apply safe_of_result | intros q; apply safe_load_document].
  - intros document. apply safe_on_heap.
    apply heap_safe_bind; [apply heap_reads_safe, (heap_reads_walk relative_jsonptr) | intros v].
    apply heap_safe_bind; [apply heap_safe_new_object | intros tag].
    apply heap_safe_bind; [apply heap_safe_setitem | intros []; apply heap_safe_ret].
Qed.

(** What a run of the body of [load_fragment] that returns has done. *)
Lemma load_fragment_body_inr (p raw : str) (s s' : state) (v : value) :
  load_fragment_body files sibling (p, raw) s = (inr v, s') ->
  exists q doc s1 a es,
    target sibling p raw = inr q /\
    load_document files q s = (inr doc, s1) /\
    walk (snd (split_ref raw)) (this doc) (objects s1) = (inr (VRef a), objects s1) /\
    v = VRef a /\
    (objects s1 ++ [ODict [(lit "raw", VStr raw)]]) !! a = Some (ODict es) /\
    s' = mkState
           (<[a := ODict (entries_set es (lit "__fragment") (VRef (length (objects s1))))]>
              (objects s1 ++ [ODict [(lit "raw", VStr raw)]]))
           (load_document_cache s1) (load_fragment_cache s1).
Proof.
  unfold load_fragment_body, target.
  destruct (split_ref raw) as [filepath relative_jsonptr]. simpl fst. simpl snd.
  intros H. apply bind_inr in H. destruct H as (doc & s1 & Hdoc & H).
  assert (Hq : exists q,
             match filepath with [] => inr p | _ :: _ => sibling p filepath end = inr q /\
             load_document files q s = (inr doc, s1)).
  { destruct filepath as [|c filepath]; [eauto |].
    apply bind_inr in Hdoc. destruct Hdoc as (q & s0 & Hq & Hdoc).
    destruct (sibling p (c :: filepath)) as [e | q']; [discriminate |].
    injection Hq as <- <-. eauto. }
  destruct Hq as (q & Hq & Hload).
  apply on_heap_inv in H. destruct H as (h & Hrun & ->).
  apply bind_inr in Hrun. destruct Hrun as (document & h1 & Hwalk & Hrun).
  change (walk relative_jsonptr (this doc) (objects s1) = (inr document, h1)) in Hwalk.
  pose proof (heap_reads_walk _ _ _ _ _ Hwalk) as ->.
  apply bind_inr in Hrun. destruct Hrun as (tag & h2 & [= <- <-] & Hrun).
  apply bind_inr in Hrun. destruct Hrun as ([] & h3 & Hset & [= <- <-]).
  apply setitem_inr in Hset. destruct Hset as (a & es & -> & Ha & ->).
  exists q, doc, s1, a, es. repeat split; auto.
Qed.

Lemma load_fragment_body_tagged (p raw : str) (s s' : state) (v : value) :
  load_fragment_body files sibling (p, raw) s = (inr v, s') ->
  exists a, v = VRef a /\ tagged (objects s') a.
Proof.
  intros H. apply load_fragment_body_inr in H.
  destruct H as (q & doc & s1 & a & es & _ & _ & _ & -> & Ha & ->).
  exists a. split; [reflexivity |]. simpl.
  eexists. split.
  - apply list_lookup_insert_eq. eapply lookup_lt_Some; eauto.
  - rewrite entries_set_present. eauto.
Qed.

Lemma safe_load_fragment (p raw : str) : safe (load_fragment files sibling p raw).
Proof.
  intros s r s' H. apply lru_cache_inv in H.
  destruct H as [(v & Hfind & -> & ->) | (Hmiss & s1 & Hbody & ->)].
  - split; [apply keeps_tags_refl |]. intros [Hdocs Hfrags]. split; [exact Hdocs |].
    destruct (cache_find_in _ _ _ _ Hfind) as (k' & Hin & Heq).
    intros k v' Hk. apply cache_touch_in in Hk.
    destruct Hk as [[= -> ->] | Hk]; [apply (Hfrags _ _ Hin) | apply (Hfrags _ _ Hk)].
  - destruct (safe_load_fragment_body _ _ _ _ Hbody) as [Hkeep Hok].
    destruct r as [e | v]; [split; assumption |].
    split; [exact Hkeep |]. intros Hs. destruct (Hok Hs) as [Hdocs Hfrags].
    split; [exact Hdocs |].
    intros k v' Hk. apply cache_store_in in Hk.
    destruct Hk as [[= -> ->] | Hk]; [| apply (Hfrags _ _ Hk)].
    apply (load_fragment_body_tagged _ _ _ _ _ Hbody).
Qed.

Lemma safe_last_item (l : list str) : safe (last_item l).
Proof. unfold last_item. destruct (last l); [apply safe_ret | apply safe_raise]. Qed.

Lemma safe_str_of_value (v : value) : safe (str_of_value v).
Proof. destruct v; try apply safe_raise. apply safe_ret. Qed.

Ltac safe_steps :=
  repeat first
    [ apply safe_ret | apply safe_raise | apply safe_last_item | apply safe_str_of_value
    | apply safe_load_fragment
    | apply safe_on_heap, heap_reads_safe, heap_reads_deref
    | apply safe_on_heap, heap_reads_safe, heap_reads_dict_getitem
    | apply safe_on_heap, heap_safe_dict_update
    | apply safe_on_heap, heap_safe_dict_pop; discriminate
    | apply safe_bind; [| intros ?]
    | apply safe_mapM; intros ?
    | match goal with
      | |- safe (match ?x with _ => _ end) => destruct x
      end ].

Lemma safe_iter_normalize (fuel : nat) (doc : OpenApiDocument) :
  forall data source_path, safe (iter_normalize files sibling fuel doc data source_path).
Proof.
  induction fuel as [|fuel IH]; intros data source_path; [apply safe_raise |].
  cbn [iter_normalize]. safe_steps; apply IH.
Qed.

Lemma step_safe (s s' : state) :
  step files sibling s s' ->
  keeps_tags (objects s) (objects s') /\ (store_ok s -> store_ok s').
Proof.
  intros [p r s1 s2 H | p raw r s1 s2 H | fuel doc sp r s1 s2 H].
  - eapply safe_load_document; eauto.
  - eapply safe_load_fragment; eauto.
  - eapply safe_iter_normalize; eauto.
Qed.

Lemma steps_safe (s s' : state) :
  steps files sibling s s' ->
  keeps_tags (objects s) (objects s') /\ (store_ok s -> store_ok s').
Proof.
  induction 1 as [s | s1 s2 s3 Hstep _ [IH1 IH2]].
  - split; [apply keeps_tags_refl | auto].
  - destruct (step_safe _ _ Hstep) as [H1 H2].
    split; [eapply keeps_tags_trans; eauto | auto].
Qed.

(** The two tables are sound in every store a run can reach. *)
Lemma reachable_store_ok (s : state) : steps files sibling initial s -> store_ok s.
Proof.
  intros H. apply (proj2 (steps_safe _ _ H)).
  split; [intros q d [] | intros k v []].
Qed.

End Safety.

(** ** The tag of [load_fragment] *)




(** * Further properties *)

(** ** References and pointers *)

Lemma split_ref_cases (jsonptr : str) :
  (exists before after,
     jsonptr = before ++ HASH :: after /\ ~ In HASH before /\
     split_ref jsonptr = (before, after)) \/
  (~ In HASH jsonptr /\ split_ref jsonptr = (jsonptr, [])).
Proof.
  unfold split_ref. change (lit "#") with [HASH].
  destruct (startswith [HASH] jsonptr) eqn:Hs.
  - apply startswith_app in Hs. destruct Hs as [r ->].
    left. exists [], r. repeat split. intros [].
  - destruct (contains [HASH] jsonptr) eqn:Hc.
    + apply contains_char in Hc.
      destruct (first_occurrence HASH jsonptr Hc) as (before & after & -> & Hnot).
      left. exists before, after. rewrite split_once_first by assumption. auto.
    + right. split; [| reflexivity].
      intros Hin. apply contains_char in Hin. congruence.
Qed.

(** X1: [split_ref] loses nothing.  When the reference holds a [#], its file
    path, a [#] and its fragment spell the reference again; the file path
    never holds a [#]; and a fragment is found only where there is a [#]. *)
Theorem split_ref_round_trip (jsonptr : str) :
  (In HASH jsonptr ->
   fst (split_ref jsonptr) ++ HASH :: snd (split_ref jsonptr) = jsonptr) /\
  ~ In HASH (fst (split_ref jsonptr)) /\
  (snd (split_ref jsonptr) <> [] -> In HASH jsonptr).
Proof.
  destruct (split_ref_cases jsonptr)
    as [(before & after & -> & Hnot & ->) | (Hnot & ->)]; simpl.
  - repeat split; auto. intros _. apply in_or_app. right. left. reflexivity.
  - repeat split; auto; tauto.
Qed.

Lemma split_ref_round_trip_witness :
  fst (split_ref (lit "other.json#/a/b")) ++ HASH :: snd (split_ref (lit "other.json#/a/b"))
  = lit "other.json#/a/b".
Proof.
  apply (proj1 (split_ref_round_trip (lit "other.json#/a/b"))).
  vm_compute. do 10 right. left. reflexivity.
Defined.

Lemma replace_single_slashes (s : str) :
  single_slashes s = true -> replace_from (lit "//") (lit "/") 0 s = s.
Proof.
  induction s as [|c s IH]; [reflexivity |].
  intros H. rewrite replace_slashes_cons.
  destruct s as [|d s].
  - rewrite andb_false_r. reflexivity.
  - change (negb ((47 =? c) && (47 =? d)) && single_slashes (d :: s) = true) in H.
    apply andb_true_iff in H. destruct H as [Hcd Hrest].
    apply negb_true_iff in Hcd. rewrite Hcd, IH by assumption. reflexivity.
Qed.

Lemma single_slashes_key (k rest : str) :
  k <> [] -> ~ In SLASH k -> single_slashes rest = true ->
  single_slashes (SLASH :: k ++ rest) = true.
Proof.
  intros Hne Hk Hrest. destruct k as [|c k]; [congruence |].
  assert (Hc : (47 =? c) = false).
  { apply N.eqb_neq. intros <-. apply Hk. left. reflexivity. }
  change (negb ((47 =? 47) && (47 =? c)) && single_slashes ((c :: k) ++ rest) = true).
  rewrite Hc, andb_false_r. simpl negb. rewrite andb_true_l.
  clear Hne. revert c Hk Hc. induction k as [|d k IH]; intros c Hk Hc.
  - destruct rest as [|e rest]; [reflexivity |].
    change (negb ((47 =? c) && (47 =? e)) && single_slashes (e :: rest) = true).
    rewrite Hc, andb_false_l. exact Hrest.
  - change (negb ((47 =? c) && (47 =? d)) && single_slashes ((d :: k) ++ rest) = true).
    rewrite Hc, andb_false_l. apply IH.
    + intros H. apply Hk. right. exact H.
    + apply N.eqb_neq. intros <-. apply Hk. right. left. reflexivity.
Qed.

Lemma single_slashes_pointer (keys : list str) :
  Forall (fun k => k <> [] /\ ~ In SLASH k) keys ->
  single_slashes (pointer_of keys) = true.
Proof.
  induction 1 as [|k keys [Hne Hk] _ IH]; [reflexivity |].
  apply single_slashes_key; assumption.
Qed.

Lemma split_pointer (k : str) (keys : list str) :
  ~ In SLASH k -> Forall (fun k => k <> [] /\ ~ In SLASH k) keys ->
  split SLASH (k ++ pointer_of keys) = k :: keys.
Proof.
  intros Hk Hkeys. revert k Hk.
  induction Hkeys as [|k2 keys [_ Hk2] _ IH]; intros k Hk.
  - unfold pointer_of. simpl. rewrite app_nil_r. apply split_no_separator. assumption.
  - change (pointer_of (k2 :: keys)) with (SLASH :: (k2 ++ pointer_of keys)).
    rewrite split_at_separator by assumption. rewrite IH by assumption. reflexivity.
Qed.

(** X2: the pointer ["/k1/.../kn"] of non-empty keys that hold no [/] is
    walked as exactly those keys, in order. *)
Theorem segments_of_pointer (k : str) (keys : list str) :
  Forall (fun k => k <> [] /\ ~ In SLASH k) (k :: keys) ->
  segments (pointer_of (k :: keys)) = k :: keys.
Proof.
  intros Hkeys. unfold segments, replace.
  rewrite replace_single_slashes by (apply single_slashes_pointer; assumption).
  inversion Hkeys as [|? ? [_ Hk] Hrest]; subst.
  change (split SLASH (k ++ pointer_of keys) = k :: keys).
  apply split_pointer; assumption.
Qed.

Lemma segments_of_pointer_witness :
  segments (lit "/paths/~1pets/get") = [lit "paths"; lit "~1pets"; lit "get"].
Proof.
  apply (segments_of_pointer (lit "paths") [lit "~1pets"; lit "get"]).
  repeat constructor; try discriminate; vm_compute; intuition discriminate.
Defined.

(** ** Trees in the store *)

Lemma represents_app (h new : heap) (t : json) :
  forall v, represents h v t -> represents (h ++ new) v t.
Proof.
  induction t as [| b | n | f | x | items IH | entries IH] using json_induction;
    intros v H; inversion H; subst; try constructor.
  - econstructor; [apply lookup_app_l_Some; eassumption |].
    rewrite List.Forall_forall in IH.
    eapply Forall2_In_impl; [eassumption |]. intros w x _ Hx Hw. apply IH; assumption.
  - econstructor; [apply lookup_app_l_Some; eassumption |].
    rewrite List.Forall_forall in IH.
    eapply Forall2_In_impl; [eassumption |].
    intros e m _ Hm [Hk Hw]. split; [exact Hk | apply IH; assumption].
Qed.

Lemma alloc_members_represents (entries : list (str * json)) :
  Forall (fun e => forall h, exists v new,
            alloc (snd e) h = (inr v, h ++ new) /\ represents (h ++ new) v (snd e)) entries ->
  forall h, exists es new,
    mapM (fun e => let* v := alloc (snd e) in ret (fst e, v)) entries h = (inr es, h ++ new) /\
    Forall2 (fun e m => fst e = fst m /\ represents (h ++ new) (snd e) (snd m)) es entries.
Proof.
  induction 1 as [|e entries He _ IH]; intros h.
  - exists [], []. rewrite app_nil_r. split; [reflexivity | constructor].
  - destruct (He h) as (v & n1 & Hv & Hrep).
    destruct (IH (h ++ n1)) as (es & n2 & Hes & Hreps).
    exists ((fst e, v) :: es), (n1 ++ n2). rewrite app_assoc. split.
    + cbn [mapM]. erewrite bind_eq; [| erewrite bind_eq by exact Hv; reflexivity].
      rewrite (bind_eq _ _ _ _ _ Hes). reflexivity.
    + constructor; [| exact Hreps].
      split; [reflexivity | apply represents_app; exact Hrep].
Qed.

Lemma alloc_items_represents (items : list json) :
  Forall (fun x => forall h, exists v new,
            alloc x h = (inr v, h ++ new) /\ represents (h ++ new) v x) items ->
  forall h, exists vs new,
    mapM alloc items h = (inr vs, h ++ new) /\
    Forall2 (represents (h ++ new)) vs items.
Proof.
  induction 1 as [|x items Hx _ IH]; intros h.
  - exists [], []. rewrite app_nil_r. split; [reflexivity | constructor].
  - destruct (Hx h) as (v & n1 & Hv & Hrep).
    destruct (IH (h ++ n1)) as (vs & n2 & Hvs & Hreps).
    exists (v :: vs), (n1 ++ n2). rewrite app_assoc. split.
    + cbn [mapM]. rewrite (bind_eq _ _ _ _ _ Hv), (bind_eq _ _ _ _ _ Hvs). reflexivity.
    + constructor; [apply represents_app; exact Hrep | exact Hreps].
Qed.

Lemma Forall2_represents_app (h new : heap) (vs : list value) (items : list json) :
  Forall2 (represents h) vs items -> Forall2 (represents (h ++ new)) vs items.
Proof.
  intros H. eapply Forall2_In_impl; [exact H |].
  intros v x _ _ Hv. apply represents_app. exact Hv.
Qed.

Lemma members_represents_app (h new : heap) (es : list (str * value))
    (entries : list (str * json)) :
  Forall2 (fun e m => fst e = fst m /\ represents h (snd e) (snd m)) es entries ->
  Forall2 (fun e m => fst e = fst m /\ represents (h ++ new) (snd e) (snd m)) es entries.
Proof.
  intros H. eapply Forall2_In_impl; [exact H |].
  intros e m _ _ [Hk Hv]. split; [exact Hk | apply represents_app; exact Hv].
Qed.

(** [json.load] builds the tree it parsed, on top of the objects there are. *)
Lemma alloc_represents (t : json) :
  forall h, exists v new, alloc t h = (inr v, h ++ new) /\ represents (h ++ new) v t.
Proof.
  induction t as [| b | n | f | x | items IH | entries IH] using json_induction; intros h;
    try (eexists _, []; rewrite app_nil_r; split; [reflexivity | constructor]).
  - destruct (alloc_items_represents items IH h) as (vs & new & Hvs & Hreps).
    exists (VRef (length (h ++ new))), (new ++ [OList vs]). rewrite app_assoc. split.
    + cbn [alloc]. rewrite (bind_eq _ _ _ _ _ Hvs). reflexivity.
    + econstructor; [apply list_lookup_middle; reflexivity |].
      apply Forall2_represents_app. exact Hreps.
  - destruct (alloc_members_represents entries IH h) as (es & new & Hes & Hreps).
    exists (VRef (length (h ++ new))), (new ++ [ODict es]). rewrite app_assoc. split.
    + cbn [alloc]. rewrite (bind_eq _ _ _ _ _ Hes). reflexivity.
    + econstructor; [apply list_lookup_middle; reflexivity |].
      apply members_represents_app. exact Hreps.
Qed.

(** The first load of a file puts its tree into the store. *)
Lemma load_document_fresh (files : str -> file) (p : str) (entries : list (str * json))
    (s : state) :
  files p = JsonFile entries ->
  cache_find str_eqb p (load_document_cache s) = None ->
  exists doc s' new,
    load_document files p s = (inr doc, s') /\
    path doc = [p] /\
    objects s' = objects s ++ new /\
    load_fragment_cache s' = load_fragment_cache s /\
    represents (objects s') (VRef (this doc)) (JDict entries).
Proof.
  intros Hfile Hmiss.
  assert (Hall : Forall (fun e => forall h, exists v new,
                           alloc (snd e) h = (inr v, h ++ new) /\
                           represents (h ++ new) v (snd e)) entries).
  { apply List.Forall_forall. intros e _. apply alloc_represents. }
  destruct (alloc_members_represents entries Hall (objects s)) as (es & new & Hes & Hreps).
  exists (mkOpenApiDocument (length (objects s ++ new)) [p]).
  eexists. exists (new ++ [ODict es]).
  unfold load_document, lru_cache, load_document_body. rewrite Hmiss, Hfile.
  unfold on_heap. rewrite (bind_eq _ _ _ _ _ Hes). simpl.
  split; [reflexivity |]. split; [reflexivity |].
  split; [rewrite app_assoc; reflexivity |]. split; [reflexivity |].
  econstructor; [apply list_lookup_middle; reflexivity |].
  apply members_represents_app. exact Hreps.
Qed.

(** ** The walk, read on the tree *)

Lemma entries_get_represents (h : heap) (es : list (str * value))
    (entries : list (str * json)) (key : str) :
  Forall2 (fun e m => fst e = fst m /\ represents h (snd e) (snd m)) es entries ->
  match json_get entries key with
  | Some u => exists w, entries_get es key = Some w /\ represents h w u
  | None => entries_get es key = None
  end.
Proof.
  induction 1 as [|[k w] [k' u] es entries [Hk Hw] _ IH]; [reflexivity |].
  simpl in Hk, Hw. subst k'. simpl. destruct (str_eqb k key); [eauto | exact IH].
Qed.

Lemma dict_step (h : heap) (a : addr) (es : list (str * value)) (segment : str) :
  h !! a = Some (ODict es) ->
  walk_segment (VRef a) segment h =
  (match entries_get es segment with Some w => inr w | None => inl KeyError end, h).
Proof.
  intros Ha.
  cbv beta iota delta [walk_segment bind isinstance_list isinstance_dict
    dict_getitem deref of_result ret raise].
  rewrite Ha. cbv beta iota. rewrite Ha. cbv beta iota. rewrite Ha.
  destruct (entries_get es segment); reflexivity.
Qed.

Lemma scalar_step (h : heap) (v : value) (segment : str) :
  match v with VRef _ => False | _ => True end ->
  walk_segment v segment h = (inl AssertionError, h).
Proof. destruct v; intros []; reflexivity. Qed.

Lemma list_step (h : heap) (l : addr) (vs : list value) (segment : str) :
  h !! l = Some (OList vs) ->
  walk_segment (VRef l) segment h =
  match int_of_str segment with
  | inl e => (inl e, h)
  | inr i =>
      let n := Z.of_nat (length vs) in
      let j := (if i <? 0 then i + n else i)%Z in
      if ((0 <=? j) && (j <? n))%Z then
        match vs !! Z.to_nat j with
        | Some (VRef a) =>
            match h !! a with
            | Some (ODict es) =>
                (match entries_get es segment with Some w => inr w | None => inl KeyError end, h)
            | Some (OList _) => (inl AssertionError, h)
            | None => (inl Unmodelled, h)
            end
        | Some _ => (inl AssertionError, h)
        | None => (inl IndexError, h)
        end
      else (inl IndexError, h)
  end.
Proof.
  intros Hl.
  cbv beta iota delta [walk_segment bind isinstance_list isinstance_dict list_getitem
    dict_getitem deref of_result ret raise].
  rewrite Hl. cbv beta iota.
  destruct (int_of_str segment) as [e | i]; [reflexivity |].
  cbv beta iota zeta. rewrite Hl. cbv beta iota.
  destruct ((0 <=? (if (i <? 0)%Z then (i + Z.of_nat (length vs))%Z else i))%Z
            && ((if (i <? 0)%Z then (i + Z.of_nat (length vs))%Z else i)
                <? Z.of_nat (length vs))%Z); [| reflexivity].
  destruct (vs !! Z.to_nat (if (i <? 0)%Z then (i + Z.of_nat (length vs))%Z else i))
    as [[| | | | | a] |]; try reflexivity.
  cbv beta iota. destruct (h !! a) as [[es | xs] |] eqn:Ha; try reflexivity.
  rewrite Ha. destruct (entries_get es segment); reflexivity.
Qed.

Lemma walk_segment_refines (h : heap) (v : value) (t : json) (segment : str) :
  represents h v t ->
  match json_step t segment with
  | inr u => exists w, walk_segment v segment h = (inr w, h) /\ represents h w u
  | inl e => walk_segment v segment h = (inl e, h)
  end.
Proof.
  intros Hrep.
  inversion Hrep as [ | | | | | l vs items Hl Hvs | a es entries Ha Hes]; subst;
    try (apply scalar_step; exact I).
  - simpl. rewrite (list_step _ _ _ _ Hl).
    destruct (int_of_str segment) as [e | i]; [reflexivity |].
    cbv zeta. rewrite (Forall2_length _ _ _ Hvs).
    destruct ((0 <=? (if (i <? 0)%Z then (i + Z.of_nat (length items))%Z else i))%Z
              && ((if (i <? 0)%Z then (i + Z.of_nat (length items))%Z else i)
                  <? Z.of_nat (length items))%Z); [| reflexivity].
    set (j := Z.to_nat (if (i <? 0)%Z then (i + Z.of_nat (length items))%Z else i)).
    destruct (items !! j) as [x |] eqn:Hx.
    + destruct (Forall2_lookup_r _ _ _ _ _ Hvs Hx) as (w & Hw & Hwx). rewrite Hw.
      inversion Hwx as [ | | | | | l' vs' items' Hl' Hvs' | a es entries Ha Hes]; subst;
        try reflexivity.
      * rewrite Hl'. reflexivity.
      * rewrite Ha. pose proof (entries_get_represents _ _ _ segment Hes) as Hget.
        destruct (json_get entries segment) as [u |].
        -- destruct Hget as (w & -> & Hwu). eauto.
        -- rewrite Hget. reflexivity.
    + assert (Hnone : vs !! j = None).
      { apply lookup_ge_None. rewrite (Forall2_length _ _ _ Hvs).
        apply lookup_ge_None. exact Hx. }
      rewrite Hnone. reflexivity.
  - simpl. rewrite (dict_step _ _ _ _ Ha).
    pose proof (entries_get_represents _ _ _ segment Hes) as Hget.
    destruct (json_get entries segment) as [u |].
    + destruct Hget as (w & -> & Hwu). eauto.
    + rewrite Hget. reflexivity.
Qed.

Lemma walk_refines (h : heap) (segs : list str) :
  forall v t, represents h v t ->
  match json_walk t segs with
  | inr u => exists w, foldM walk_segment v segs h = (inr w, h) /\ represents h w u
  | inl e => foldM walk_segment v segs h = (inl e, h)
  end.
Proof.
  induction segs as [|segment segs IH]; intros v t Hrep; [simpl; eauto |].
  simpl. pose proof (walk_segment_refines h v t segment Hrep) as Hstep.
  destruct (json_step t segment) as [e | u].
  - unfold bind. rewrite Hstep. reflexivity.
  - destruct Hstep as (w & Hw & Hwu). rewrite (bind_eq _ _ _ _ _ Hw).
    apply IH. exact Hwu.
Qed.



(** ** What [load_fragment] resolves *)

Section Resolution.
Variable files : str -> file.
Variable sibling : str -> str -> error + str.

(** The body of [load_fragment] up to the walk. *)
Lemma load_fragment_body_unfold (p raw q : str) (s s1 : state) (doc : OpenApiDocument) :
  target sibling p raw = inr q ->
  load_document files q s = (inr doc, s1) ->
  load_fragment_body files sibling (p, raw) s =
  on_heap (let* document := walk (snd (split_ref raw)) (this doc) in
           let* tag := new_object (ODict [(lit "raw", VStr raw)]) in
           setitem document (lit "__fragment") (VRef tag);;
           ret document) s1.
Proof.
  unfold target, load_fragment_body.
  destruct (split_ref raw) as [filepath relative_jsonptr]. simpl fst. simpl snd.
  intros Htarget Hload. destruct filepath as [|c filepath].
  - injection Htarget as <-. rewrite (bind_eq _ _ _ _ _ Hload). reflexivity.
  - erewrite bind_eq; [| rewrite Htarget; simpl; erewrite bind_eq by reflexivity; exact Hload].
    reflexivity.
Qed.

(** X4: a reference whose pointer names a mapping of the target document
    resolves to the object that holds that mapping: [load_fragment] returns
    a reference to it, adds the key [__fragment] to it in place, and builds
    nothing else than the tag [{"raw": raw_jsonptr}]. *)
Theorem load_fragment_resolves (p raw q : str) (s s1 : state) (doc : OpenApiDocument)
    (t u : json) :
  cache_find key_eqb (p, raw) (load_fragment_cache s) = None ->
  target sibling p raw = inr q ->
  load_document files q s = (inr doc, s1) ->
  represents (objects s1) (VRef (this doc)) t ->
  json_resolve t (snd (split_ref raw)) = inr u ->
  is_mapping u = true ->
  exists a es s',
    load_fragment files sibling p raw s = (inr (VRef a), s') /\
    represents (objects s1) (VRef a) u /\
    objects s1 !! a = Some (ODict es) /\
    objects s' =
      <[a := ODict (entries_set es (lit "__fragment") (VRef (length (objects s1))))]>
        (objects s1 ++ [ODict [(lit "raw", VStr raw)]]).
Proof.
  intros Hmiss Htarget Hload Hrep Hres Hmap.
  pose proof (walk_refines (objects s1)) as Hwalk.
  assert (Hw : exists w, walk (snd (split_ref raw)) (this doc) (objects s1)
                         = (inr w, objects s1) /\ represents (objects s1) w u).
  { unfold json_resolve in Hres. unfold walk.
    destruct (snd (split_ref raw)) as [|c rel].
    - injection Hres as <-. simpl. eauto.
    - specialize (Hwalk (segments (c :: rel)) _ _ Hrep). rewrite Hres in Hwalk. exact Hwalk. }
  destruct Hw as (w & Hw & Hwu).
  destruct u; try discriminate.
  inversion Hwu as [ | | | | | | a es entries' Ha Hes]; subst.
  exists a, es. eexists. split.
  - unfold load_fragment, lru_cache. rewrite Hmiss.
    rewrite (load_fragment_body_unfold _ _ _ _ _ _ Htarget Hload).
    unfold on_heap. rewrite (bind_eq _ _ _ _ _ Hw).
    cbv beta iota delta [bind new_object setitem deref assign ret].
    rewrite (lookup_app_l_Some _ _ _ _ Ha). reflexivity.
  - split; [exact Hwu | split; [exact Ha | reflexivity]].
Qed.



End Resolution.

Lemma load_fragment_resolves_witness :
  exists a s',
    load_fragment (single_file main_json override_document) no_pathlib
      main_json (lit "#/b") initial = (inr (VRef a), s') /\
    is_Some (member s' (VRef a) (lit "__fragment")).
Proof.
  destruct (load_document_fresh (single_file main_json override_document) main_json
              override_document initial eq_refl eq_refl)
    as (doc & s1 & new & Hload & _ & _ & _ & Hrep).
  destruct (load_fragment_resolves (single_file main_json override_document) no_pathlib
              main_json (lit "#/b") main_json initial s1 doc (JDict override_document)
              (JDict [ (lit "x", JInt 1); (lit "y", JInt 3) ])
              eq_refl eq_refl Hload Hrep eq_refl eq_refl)
    as (a & es & s' & Hrun & _ & Ha & Hobjects).
  exists a, s'. split; [exact Hrun |].
  unfold member. rewrite Hobjects.
  rewrite list_lookup_insert_eq
    by (rewrite length_app; apply lookup_lt_Some in Ha; simpl; lia).
  rewrite entries_set_present. eauto.
Defined.


(** ** The tables of [functools.lru_cache] *)

Lemma cache_rank_find {V} (k : str) (c : list (str * V)) :
  cache_find str_eqb k c = option_map snd (cache_rank k c).
Proof.
  induction c as [|[k' v] c IH]; [reflexivity |]. simpl.
  destruct (str_eqb k' k); [reflexivity |].
  rewrite IH. destruct (cache_rank k c) as [[i v'] |]; reflexivity.
Qed.

Lemma cache_rank_remove_other {V} (k q : str) (c : list (str * V)) i v :
  q <> k -> cache_rank k c = Some (i, v) ->
  exists j, (j <= i)%nat /\ cache_rank k (cache_remove str_eqb q c) = Some (j, v).
Proof.
  intros Hne. revert i. induction c as [|[k' v'] c IH]; intros i; [discriminate |].
  simpl. destruct (str_eqb k' q) eqn:Hq.
  - apply str_eqb_eq in Hq. subst k'.
    replace (str_eqb q k) with false by (symmetry; apply str_eqb_neq; assumption).
    destruct (cache_rank k c) as [[i0 v0] |]; [| discriminate].
    intros [= <- <-]. exists i0. split; [lia | reflexivity].
  - simpl. destruct (str_eqb k' k); [intros [= <- <-]; exists O; split; [lia | reflexivity] |].
    destruct (cache_rank k c) as [[i0 v0] |]; [| discriminate].
    intros [= <- <-]. destruct (IH i0 eq_refl) as (j & Hj & ->).
    exists (S j). split; [lia | reflexivity].
Qed.

Lemma cache_rank_take {V} (k : str) (c : list (str * V)) (n i : nat) v :
  cache_rank k c = Some (i, v) -> (i < n)%nat -> cache_rank k (take n c) = Some (i, v).
Proof.
  revert n i. induction c as [|[k' v'] c IH]; intros n i; [discriminate |].
  simpl. intros H Hlt. destruct n as [|n]; [lia |]. simpl.
  destruct (str_eqb k' k); [exact H |].
  destruct (cache_rank k c) as [[i0 v0] |]; [| discriminate].
  injection H as <- <-. rewrite (IH n i0 eq_refl) by lia. reflexivity.
Qed.

Lemma load_document_body_tables (files : str -> file) (p : str) s r s' :
  load_document_body files p s = (r, s') ->
  load_document_cache s' = load_document_cache s /\
  load_fragment_cache s' = load_fragment_cache s.
Proof.
  unfold load_document_body. intros H.
  destruct (files p) as [| | | entries].
  - destruct (contains (lit "/examples/") p).
    + apply on_heap_inv in H. destruct H as (h & _ & ->). split; reflexivity.
    + injection H as _ <-. split; reflexivity.
  - injection H as _ <-. split; reflexivity.
  - injection H as _ <-. split; reflexivity.
  - apply on_heap_inv in H. destruct H as (h & _ & ->). split; reflexivity.
Qed.

(** One more load moves a memoized document back by one place at most. *)
Lemma cache_rank_load (files : str -> file) (p q : str) (s s' : state) r i doc :
  cache_rank p (load_document_cache s) = Some (i, doc) ->
  (S i < maxsize)%nat ->
  load_document files q s = (r, s') ->
  exists j, (j <= S i)%nat /\ cache_rank p (load_document_cache s') = Some (j, doc).
Proof.
  intros Hrank Hlt Hrun. apply lru_cache_inv in Hrun.
  destruct Hrun as [(v & Hfind & -> & ->) | (Hmiss & s1 & Hbody & ->)].
  - simpl. destruct (str_eqb q p) eqn:Hqp.
    + apply str_eqb_eq in Hqp. subst q.
      rewrite cache_rank_find, Hrank in Hfind. injection Hfind as <-.
      exists O. split; [lia | reflexivity].
    + apply str_eqb_neq in Hqp.
      destruct (cache_rank_remove_other p q _ _ _ Hqp Hrank) as (j & Hj & ->).
      exists (S j). split; [lia | reflexivity].
  - destruct (load_document_body_tables _ _ _ _ _ Hbody) as [Hdocs _].
    destruct r as [e | d].
    + rewrite Hdocs. exists i. split; [lia | exact Hrank].
    + simpl. rewrite Hdocs. unfold cache_store.
      assert (Hqp : str_eqb q p = false).
      { apply str_eqb_neq. intros ->.
        rewrite cache_rank_find, Hrank in Hmiss. discriminate. }
      exists (S i). split; [lia |].
      unfold maxsize in *. simpl. rewrite Hqp.
      rewrite (cache_rank_take p _ 127 i doc Hrank) by lia. reflexivity.
Qed.

Lemma cache_rank_after_loads (files : str -> file) (p : str) (qs : list str) :
  forall s i doc,
    cache_rank p (load_document_cache s) = Some (i, doc) ->
    (i + length qs < maxsize)%nat ->
    exists j, (j <= i + length qs)%nat /\
              cache_rank p (load_document_cache (after_loads files qs s)) = Some (j, doc).
Proof.
  induction qs as [|q qs IH]; intros s i doc Hrank Hlt.
  - exists i. split; [lia | exact Hrank].
  - simpl in Hlt. simpl.
    destruct (load_document files q s) as [r s1] eqn:Hrun.
    destruct (cache_rank_load files p q s s1 r i doc Hrank ltac:(lia) Hrun) as (j & Hj & Hrank1).
    destruct (IH s1 j doc Hrank1 ltac:(lia)) as (j' & Hj' & Hrank').
    exists j'. split; [lia | exact Hrank'].
Qed.

(** X6: a document that was just loaded outlives 127 further calls of
    [load_document], whatever their paths and outcomes: the next call for its
    path returns the same instance and builds nothing in the store (the file
    is not read again). *)
Theorem document_outlives_127_loads (files : str -> file) (p : str) (qs : list str)
    (s0 s : state) (doc : OpenApiDocument) :
  load_document files p s0 = (inr doc, s) ->
  (length qs <= 127)%nat ->
  exists s',
    load_document files p (after_loads files qs s) = (inr doc, s') /\
    objects s' = objects (after_loads files qs s).
Proof.
  intros Hload Hlen.
  assert (Hrank : cache_rank p (load_document_cache s) = Some (O, doc)).
  { apply lru_cache_inv in Hload.
    destruct Hload as [(v & Hfind & [= ->] & ->) | (Hmiss & s1 & Hbody & ->)]; simpl.
    - rewrite str_eqb_refl. reflexivity.
    - rewrite str_eqb_refl. reflexivity. }
  destruct (cache_rank_after_loads files p qs s O doc Hrank) as (j & _ & Hafter).
  { unfold maxsize. simpl. lia. }
  unfold load_document at 1, lru_cache.
  rewrite cache_rank_find, Hafter. simpl. eauto.
Qed.

Lemma document_outlives_127_loads_witness :
  exists doc s',
    load_document same_everywhere (lit "p")
      (after_loads same_everywhere (map str_of_nat (seq 0 127))
         (snd (load_document same_everywhere (lit "p") initial)))
    = (inr doc, s') /\
    this doc = 1%nat.
Proof.
  destruct (load_document same_everywhere (lit "p") initial) as [[e | doc] s] eqn:Hload;
    [vm_compute in Hload; discriminate |].
  destruct (document_outlives_127_loads same_everywhere (lit "p")
              (map str_of_nat (seq 0 127)) initial s doc Hload)
    as (s' & Hrun & _).
  { rewrite length_map, length_seq. lia. }
  exists doc, s'. split; [exact Hrun |].
  vm_compute in Hload. injection Hload as <- _. reflexivity.
Defined.

(** ** Properties of the tables that every call keeps *)

Section Invariant.
Variable files : str -> file.
Variable sibling : str -> str -> error + str.
Variable I : state -> Prop.
Hypothesis I_heap : forall s h,
  I s -> I (mkState h (load_document_cache s) (load_fragment_cache s)).
Hypothesis I_document_hit : forall s k v,
  cache_find str_eqb k (load_document_cache s) = Some v ->
  I s -> I (set_load_document_cache (cache_touch str_eqb k v (load_document_cache s)) s).
Hypothesis I_document_miss : forall s k v,
  I s -> I (set_load_document_cache (cache_store k v (load_document_cache s)) s).
Hypothesis I_fragment_hit : forall s k v,
  cache_find key_eqb k (load_fragment_cache s) = Some v ->
  I s -> I (set_load_fragment_cache (cache_touch key_eqb k v (load_fragment_cache s)) s).
Hypothesis I_fragment_miss : forall s k v,
  I s -> I (set_load_fragment_cache (cache_store k v (load_fragment_cache s)) s).

Lemma keeps_ret {A} (x : A) : keeps I (ret x).
Proof. intros s r s' [= _ <-]. auto. Qed.

Lemma keeps_raise {A} (e : error) : keeps I (@raise state A e).
Proof. intros s r s' [= _ <-]. auto. Qed.

Lemma keeps_of_result {A} (r : error + A) : keeps I (of_result r).
Proof. destruct r; [apply keeps_raise | apply keeps_ret]. Qed.

Lemma keeps_bind {A B} (m : M state A) (k : A -> M state B) :
  keeps I m -> (forall x, keeps I (k x)) -> keeps I (bind m k).
Proof.
  intros Hm Hk s r s'. unfold bind. destruct (m s) as [[e | x] s1] eqn:E.
  - intros [= _ <-]. eapply Hm; eauto.
  - intros H Hs. eapply Hk; [exact H |]. eapply Hm; eauto.
Qed.

Lemma keeps_on_heap {A} (m : M heap A) : keeps I (on_heap m).
Proof.
  intros s r s' H Hs. apply on_heap_inv in H. destruct H as (h & _ & ->).
  apply I_heap. exact Hs.
Qed.

Lemma keeps_mapM {A B} (f : A -> M state B) (xs : list A) :
  (forall x, keeps I (f x)) -> keeps I (mapM f xs).
Proof.
  intros Hf. induction xs as [|x xs IH]; simpl.
  - apply keeps_ret.
  - apply keeps_bind; [apply Hf | intros y].
    apply keeps_bind; [apply IH | intros ys; apply keeps_ret].
Qed.

Lemma keeps_foldM {A B} (f : B -> A -> M state B) (xs : list A) :
  (forall acc x, keeps I (f acc x)) -> forall acc, keeps I (foldM f acc xs).
Proof.
  intros Hf. induction xs as [|x xs IH]; intros acc; simpl.
  - apply keeps_ret.
  - apply keeps_bind; [apply Hf | intros acc'; apply IH].
Qed.

Lemma keeps_load_document_body (p : str) : keeps I (load_document_body files p).
Proof.
  unfold load_document_body. destruct (files p).
  - destruct (contains (lit "/examples/") p); [apply keeps_on_heap | apply keeps_raise].
  - apply keeps_raise.
  - apply keeps_raise.
  - apply keeps_on_heap.
Qed.

Lemma keeps_load_document (p : str) : keeps I (load_document files p).
Proof.
  intros s r s' H Hs. apply lru_cache_inv in H.
  destruct H as [(d & Hfind & -> & ->) | (Hmiss & s1 & Hbody & ->)].
  - exact (I_document_hit s p d Hfind Hs).
  - pose proof (keeps_load_document_body p _ _ _ Hbody Hs) as Hs1.
    destruct r as [e | d]; [exact Hs1 | exact (I_document_miss s1 p d Hs1)].
Qed.

Lemma keeps_load_fragment_body (key : str * str) :
  keeps I (load_fragment_body files sibling key).
Proof.
  unfold load_fragment_body. destruct key as [p raw].
  destruct (split_ref raw) as [filepath relative_jsonptr].
  apply keeps_bind; [| intros document; apply keeps_on_heap].
  destruct filepath; [apply keeps_load_document |].
  apply keeps_bind; [apply keeps_of_result | intros q; apply keeps_load_document].
Qed.

Lemma keeps_load_fragment (p raw : str) : keeps I (load_fragment files sibling p raw).
Proof.
  intros s r s' H Hs. apply lru_cache_inv in H.
  destruct H as [(v & Hfind & -> & ->) | (Hmiss & s1 & Hbody & ->)].
  - exact (I_fragment_hit s (p, raw) v Hfind Hs).
  - pose proof (keeps_load_fragment_body _ _ _ _ Hbody Hs) as Hs1.
    destruct r as [e | v]; [exact Hs1 | exact (I_fragment_miss s1 (p, raw) v Hs1)].
Qed.

Lemma keeps_last_item (l : list str) : keeps I (last_item l).
Proof. unfold last_item. destruct (last l); [apply keeps_ret | apply keeps_raise]. Qed.

Lemma keeps_str_of_value (v : value) : keeps I (str_of_value v).
Proof. destruct v; try apply keeps_raise. apply keeps_ret. Qed.

Ltac keeps_steps :=
  repeat first
    [ apply keeps_ret | apply keeps_raise | apply keeps_last_item | apply keeps_str_of_value
    | apply keeps_load_fragment | apply keeps_on_heap
    | apply keeps_bind; [| intros ?]
    | apply keeps_mapM; intros ?
    | match goal with
      | |- keeps I (match ?x with _ => _ end) => destruct x
      end ].

Lemma keeps_iter_normalize (fuel : nat) (doc : OpenApiDocument) :
  forall data source_path, keeps I (iter_normalize files sibling fuel doc data source_path).
Proof.
  induction fuel as [|fuel IH]; intros data source_path; [apply keeps_raise |].
  cbn [iter_normalize]. keeps_steps; apply IH.
Qed.

Lemma keeps_steps_of_run (s s' : state) : steps files sibling s s' -> I s -> I s'.
Proof.
  induction 1 as [s | s1 s2 s3 Hstep _ IH]; [auto |].
  intros Hs. apply IH.
  destruct Hstep as [p r s1 s2 H | p raw r s1 s2 H | fuel doc sp r s1 s2 H].
  - eapply keeps_load_document; eauto.
  - eapply keeps_load_fragment; eauto.
  - eapply keeps_iter_normalize; eauto.
Qed.

End Invariant.

Lemma cache_remove_length {K V} (eqb : K -> K -> bool) (k : K) (c : list (K * V)) v :
  cache_find eqb k c = Some v -> S (length (cache_remove eqb k c)) = length c.
Proof.
  induction c as [|[k' v'] c IH]; simpl; [discriminate |].
  destruct (eqb k' k); [reflexivity |]. intros H. simpl. rewrite IH by assumption. reflexivity.
Qed.

Lemma cache_store_length {K V} (k : K) (v : V) (c : list (K * V)) :
  (length (cache_store k v c) <= maxsize)%nat.
Proof. unfold cache_store. rewrite length_take. lia. Qed.

(** X7: neither table of [functools.lru_cache] ever holds more than 128
    entries, after any calls of [load_document], [load_fragment] and
    [normalize]. *)
Theorem tables_stay_bounded (files : str -> file) (sibling : str -> str -> error + str)
    (s : state) :
  steps files sibling initial s -> tables_bounded s.
Proof.
  intros Hrun.
  apply (keeps_steps_of_run files sibling tables_bounded) with (s := initial);
    try exact Hrun; unfold tables_bounded.
  - intros s0 h H. exact H.
  - intros s0 k v Hfind [Hd Hf].
    pose proof (cache_remove_length _ _ _ _ Hfind) as Hlen.
    split; [| exact Hf]. simpl in *. lia.
  - intros s0 k v [Hd Hf]. split; [exact (cache_store_length k v _) | exact Hf].
  - intros s0 k v Hfind [Hd Hf].
    pose proof (cache_remove_length _ _ _ _ Hfind) as Hlen.
    split; [exact Hd |]. simpl in *. lia.
  - intros s0 k v [Hd Hf]. split; [exact Hd | exact (cache_store_length k v _)].
  - simpl. unfold maxsize. lia.
Qed.

Lemma tables_stay_bounded_witness :
  tables_bounded (snd (load_document same_everywhere (lit "p") initial)).
Proof.
  apply (tables_stay_bounded same_everywhere no_pathlib).
  eapply steps_step; [| apply steps_refl].
  eapply step_load_document. apply surjective_pairing.
Defined.

(** ** The store only grows *)

Lemma extends_refl (h : heap) : extends h h.
Proof. repeat split; eauto. Qed.

Lemma extends_trans (h1 h2 h3 : heap) : extends h1 h2 -> extends h2 h3 -> extends h1 h3.
Proof.
  intros (Hl1 & Hx1 & Hd1) (Hl2 & Hx2 & Hd2). split; [lia |]. split; [auto |].
  intros a es Ha. destruct (Hd1 a es Ha) as (es1 & Ha1 & Hk1).
  destruct (Hd2 a es1 Ha1) as (es2 & Ha2 & Hk2). exists es2. split; auto.
Qed.

Lemma extends_app (h new : heap) : extends h (h ++ new).
Proof.
  split; [rewrite length_app; lia |]. split.
  - intros a xs Ha. apply lookup_app_l_Some. exact Ha.
  - intros a es Ha. exists es. split; [apply lookup_app_l_Some; exact Ha | auto].
Qed.

Lemma extends_write (h : heap) (a : addr) (es es' : list (str * value)) :
  h !! a = Some (ODict es) ->
  (forall k, k <> lit "$ref" -> is_Some (entries_get es k) -> is_Some (entries_get es' k)) ->
  extends h (<[a := ODict es']> h).
Proof.
  intros Ha Hkeys. split; [rewrite length_insert; lia |]. split.
  - intros b xs Hb. destruct (decide (a = b)) as [<- | Hne]; [congruence |].
    rewrite list_lookup_insert_ne by assumption. exact Hb.
  - intros b esb Hb. destruct (decide (a = b)) as [<- | Hne].
    + exists es'. split; [apply list_lookup_insert_eq; eapply lookup_lt_Some; eauto |].
      rewrite Ha in Hb. injection Hb as <-. exact Hkeys.
    + exists esb. split; [rewrite list_lookup_insert_ne by assumption; exact Hb | auto].
Qed.

Lemma grows_ret {A} (x : A) : grows (ret x).
Proof. intros h r h' [= _ <-]. apply extends_refl. Qed.

Lemma grows_raise {A} (e : error) : grows (@raise heap A e).
Proof. intros h r h' [= _ <-]. apply extends_refl. Qed.

Lemma grows_bind {A B} (m : M heap A) (k : A -> M heap B) :
  grows m -> (forall x, grows (k x)) -> grows (bind m k).
Proof.
  intros Hm Hk h r h'. unfold bind. destruct (m h) as [[e | x] h1] eqn:E.
  - intros [= _ <-]. eapply Hm; eauto.
  - intros H. eapply extends_trans; [eapply Hm | eapply Hk]; eauto.
Qed.

Lemma grows_reads {A} (m : M heap A) : heap_reads m -> grows m.
Proof. intros Hm h r h' H. rewrite (Hm _ _ _ H). apply extends_refl. Qed.

Lemma grows_new_object (o : obj) : grows (new_object o).
Proof. intros h r h' [= _ <-]. apply extends_app. Qed.

Lemma grows_setitem (v : value) (key : str) (x : value) : grows (setitem v key x).
Proof.
  intros h r h' H. unfold setitem in H.
  destruct v; try (injection H as _ <-; apply extends_refl).
  unfold bind, deref in H. destruct (h !! a) as [[es | xs] |] eqn:Ha;
    try (injection H as _ <-; apply extends_refl).
  injection H as _ <-. eapply extends_write; [eassumption |].
  intros k _. apply entries_set_keeps.
Qed.

Lemma grows_pop_ref (a : addr) : grows (dict_pop a (lit "$ref")).
Proof.
  unfold dict_pop.
  apply grows_bind; [apply grows_reads, heap_reads_dict_getitem | intros v].
  intros h r h' H. unfold bind, deref in H.
  destruct (h !! a) as [[es | xs] |] eqn:Ha; try (injection H as _ <-; apply extends_refl).
  injection H as _ <-. eapply extends_write; [eassumption |].
  intros k Hk. rewrite entries_del_other by congruence. auto.
Qed.

Lemma grows_foldM {A B} (f : B -> A -> M heap B) (xs : list A) :
  (forall acc x, grows (f acc x)) -> forall acc, grows (foldM f acc xs).
Proof.
  intros Hf. induction xs as [|x xs IH]; intros acc; simpl.
  - apply grows_ret.
  - apply grows_bind; [apply Hf | intros acc'; apply IH].
Qed.

Lemma grows_mapM {A B} (f : A -> M heap B) (xs : list A) :
  (forall x, grows (f x)) -> grows (mapM f xs).
Proof.
  intros Hf. induction xs as [|x xs IH]; simpl.
  - apply grows_ret.
  - apply grows_bind; [apply Hf | intros y].
    apply grows_bind; [apply IH | intros ys; apply grows_ret].
Qed.

Lemma grows_dict_update (a : addr) (other : value) : grows (dict_update a other).
Proof.
  unfold dict_update.
  apply grows_bind; [apply grows_reads, heap_reads_deref | intros target].
  destruct target; [| apply grows_raise].
  destruct other as [| | | | | b]; try apply grows_raise.
  apply grows_bind; [apply grows_reads, heap_reads_deref | intros o].
  destruct o as [es | xs]; [| apply grows_raise].
  destruct (a =? b)%nat; [apply grows_ret |].
  apply grows_foldM. intros [] [k v]. apply grows_setitem.
Qed.

Lemma grows_alloc (t : json) : grows (alloc t).
Proof.
  induction t as [| b | n | f | x | items IH | entries IH] using json_induction;
    try apply grows_ret.
  - cbn [alloc]. apply grows_bind.
    + induction IH as [|x items Hx _ IHitems]; simpl; [apply grows_ret |].
      apply grows_bind; [exact Hx | intros y].
      apply grows_bind; [exact IHitems | intros ys; apply grows_ret].
    + intros vs. apply grows_bind; [apply grows_new_object | intros a; apply grows_ret].
  - cbn [alloc]. apply grows_bind.
    + induction IH as [|x entries Hx _ IHentries]; simpl; [apply grows_ret |].
      apply grows_bind.
      * apply grows_bind; [exact Hx | intros v; apply grows_ret].
      * intros y. apply grows_bind; [exact IHentries | intros ys; apply grows_ret].
    + intros es. apply grows_bind; [apply grows_new_object | intros a; apply grows_ret].
Qed.

Lemma store_grows_ret {A} (x : A) : store_grows (ret x).
Proof. intros s r s' [= _ <-]. apply extends_refl. Qed.

Lemma store_grows_raise {A} (e : error) : store_grows (@raise state A e).
Proof. intros s r s' [= _ <-]. apply extends_refl. Qed.

Lemma store_grows_of_result {A} (r : error + A) : store_grows (of_result r).
Proof. destruct r; [apply store_grows_raise | apply store_grows_ret]. Qed.

Lemma store_grows_bind {A B} (m : M state A) (k : A -> M state B) :
  store_grows m -> (forall x, store_grows (k x)) -> store_grows (bind m k).
Proof.
  intros Hm Hk s r s'. unfold bind. destruct (m s) as [[e | x] s1] eqn:E.
  - intros [= _ <-]. eapply Hm; eauto.
  - intros H. eapply extends_trans; [eapply Hm | eapply Hk]; eauto.
Qed.

Lemma store_grows_on_heap {A} (m : M heap A) : grows m -> store_grows (on_heap m).
Proof.
  intros Hm s r s' H. apply on_heap_inv in H. destruct H as (h & Hrun & ->).
  exact (Hm _ _ _ Hrun).
Qed.

Lemma store_grows_mapM {A B} (f : A -> M state B) (xs : list A) :
  (forall x, store_grows (f x)) -> store_grows (mapM f xs).
Proof.
  intros Hf. induction xs as [|x xs IH]; simpl.
  - apply store_grows_ret.
  - apply store_grows_bind; [apply Hf | intros y].
    apply store_grows_bind; [apply IH | intros ys; apply store_grows_ret].
Qed.

Lemma store_grows_lru_cache {K V} (eqb : K -> K -> bool) table set_table
    (body : K -> M state V) (k : K) :
  (forall c s, objects (set_table c s) = objects s) ->
  store_grows (body k) ->
  store_grows (lru_cache eqb table set_table body k).
Proof.
  intros Hset Hbody s r s' H. apply lru_cache_inv in H.
  destruct H as [(v & _ & _ & ->) | (_ & s1 & Hrun & ->)].
  - rewrite Hset. apply extends_refl.
  - pose proof (Hbody _ _ _ Hrun) as Hext.
    destruct r; [exact Hext | rewrite Hset; exact Hext].
Qed.

Section Growth.
Variable files : str -> file.
Variable sibling : str -> str -> error + str.

Lemma store_grows_load_document (p : str) : store_grows (load_document files p).
Proof.
  apply store_grows_lru_cache; [reflexivity |].
  unfold load_document_body. destruct (files p) as [| | | entries];
    try apply store_grows_raise.
  - destruct (contains (lit "/examples/") p); [| apply store_grows_raise].
    apply store_grows_on_heap. unfold new_document.
    apply grows_bind; [apply grows_new_object | intros a; apply grows_ret].
  - apply store_grows_on_heap. apply grows_bind.
    + apply grows_mapM. intros e.
      apply grows_bind; [apply grows_alloc | intros v; apply grows_ret].
    + intros es. unfold new_document.
      apply grows_bind; [apply grows_new_object | intros a; apply grows_ret].
Qed.

Lemma store_grows_load_fragment (p raw : str) :
  store_grows (load_fragment files sibling p raw).
Proof.
  apply store_grows_lru_cache; [reflexivity |].
  unfold load_fragment_body. destruct (split_ref raw) as [filepath relative_jsonptr].
  apply store_grows_bind.
  - destruct filepath; [apply store_grows_load_document |].
    apply store_grows_bind; [apply store_grows_of_result | intros q].
    apply store_grows_load_document.
  - intros document. apply store_grows_on_heap.
    apply grows_bind; [apply grows_reads, (heap_reads_walk relative_jsonptr) | intros v].
    apply grows_bind; [apply grows_new_object | intros tag].
    apply grows_bind; [apply grows_setitem | intros []; apply grows_ret].
Qed.

Lemma store_grows_last_item (l : list str) : store_grows (last_item l).
Proof.
  unfold last_item. destruct (last l); [apply store_grows_ret | apply store_grows_raise].
Qed.

Lemma store_grows_str_of_value (v : value) : store_grows (str_of_value v).
Proof. destruct v; try apply store_grows_raise. apply store_grows_ret. Qed.

Ltac grows_steps :=
  repeat first
    [ apply store_grows_ret | apply store_grows_raise | apply store_grows_last_item
    | apply store_grows_str_of_value | apply store_grows_load_fragment
    | apply store_grows_on_heap, grows_reads, heap_reads_deref
    | apply store_grows_on_heap, grows_reads, heap_reads_dict_getitem
    | apply store_grows_on_heap, grows_dict_update
    | apply store_grows_on_heap, grows_pop_ref
    | apply store_grows_bind; [| intros ?]
    | apply store_grows_mapM; intros ?
    | match goal with
      | |- store_grows (match ?x with _ => _ end) => destruct x
      end ].

Lemma store_grows_iter_normalize (fuel : nat) (doc : OpenApiDocument) :
  forall data source_path,
    store_grows (iter_normalize files sibling fuel doc data source_path).
Proof.
  induction fuel as [|fuel IH]; intros data source_path; [apply store_grows_raise |].
  cbn [iter_normalize]. grows_steps; apply IH.
Qed.

(** X8: under any calls of [load_document], [load_fragment] and [normalize]
    the store only grows: no object goes away, no list is ever changed, and
    a mapping stays a mapping that keeps every key it has, with the one
    exception of [$ref]. *)
Theorem store_only_grows (s s' : state) :
  steps files sibling s s' -> extends (objects s) (objects s').
Proof.
  induction 1 as [s | s1 s2 s3 Hstep _ IH]; [apply extends_refl |].
  eapply extends_trans; [| exact IH].
  destruct Hstep as [p r s1 s2 H | p raw r s1 s2 H | fuel doc sp r s1 s2 H].
  - eapply store_grows_load_document; eauto.
  - eapply store_grows_load_fragment; eauto.
  - eapply store_grows_iter_normalize; eauto.
Qed.

End Growth.

Lemma store_only_grows_witness :
  extends (objects initial)
    (objects (snd (load_document same_everywhere (lit "p") initial))).
Proof.
  apply (store_only_grows same_everywhere no_pathlib).
  eapply steps_step; [| apply steps_refl].
  eapply step_load_document. apply surjective_pairing.
Defined.

(** ** The shape of what [normalize] builds *)

Lemma lstrip_suffix (s : str) :
  exists pre, s = pre ++ lstrip s /\ forallb isspace pre = true.
Proof.
  induction s as [|c s (pre & Hs & Hpre)]; [exists []; split; reflexivity |].
  simpl. destruct (isspace c) eqn:Hc.
  - exists (c :: pre). split; [simpl; congruence | simpl; rewrite Hc; exact Hpre].
  - exists []. split; reflexivity.
Qed.

Lemma lstrip_head_nonspace (s : str) :
  match lstrip s with [] => True | c :: _ => isspace c = false end.
Proof.
  induction s as [|c s IH]; [exact I |].
  simpl. destruct (isspace c) eqn:Hc; [exact IH | exact Hc].
Qed.

Lemma strip_is_trimmed (s : str) : is_trimmed (strip s) = true.
Proof.
  unfold strip, rstrip. set (a := lstrip s).
  pose proof (lstrip_head_nonspace s) as Ha. fold a in Ha.
  destruct (lstrip_suffix (rev a)) as (pre & Hrev & _).
  pose proof (lstrip_head_nonspace (rev a)) as Hb.
  destruct (lstrip (rev a)) as [|d b]; [reflexivity |].
  assert (Hsplit : a = rev (d :: b) ++ rev pre).
  { rewrite <- rev_app_distr, <- Hrev, rev_involutive. reflexivity. }
  simpl rev in *. unfold is_trimmed.
  destruct (rev b ++ [d]) as [|c x] eqn:Hx.
  - destruct (rev b); discriminate.
  - rewrite <- Hx, last_last, Hb. rewrite Hsplit in Ha. simpl in Ha. rewrite Ha. reflexivity.
Qed.

Lemma insert_sorted_nondecreasing (k : str) (keys : list str) :
  nondecreasing keys = true -> nondecreasing (insert_sorted k keys) = true.
Proof.
  induction keys as [|k1 keys IH]; [reflexivity |].
  intros H. cbn [insert_sorted]. destruct (str_ltb k1 k) eqn:Hlt.
  - destruct keys as [|k2 keys].
    + cbn. rewrite (str_ltb_asym _ _ Hlt). reflexivity.
    + cbn [nondecreasing] in H. apply andb_true_iff in H. destruct H as [H12 Hrest].
      specialize (IH Hrest). cbn [insert_sorted] in *.
      destruct (str_ltb k2 k).
      * cbn [nondecreasing]. rewrite H12. exact IH.
      * cbn [nondecreasing]. rewrite (str_ltb_asym _ _ Hlt). exact IH.
  - cbn [nondecreasing]. rewrite Hlt. exact H.
Qed.

Lemma sorted_nondecreasing (keys : list str) : nondecreasing (sorted keys) = true.
Proof.
  induction keys as [|k keys IH]; [reflexivity |].
  simpl. apply insert_sorted_nondecreasing. exact IH.
Qed.

Lemma mapM_inr {S A B} (f : A -> M S B) (xs : list A) :
  forall ys s s', mapM f xs s = (inr ys, s') ->
  Forall2 (fun x y => exists s1 s2, f x s1 = (inr y, s2)) xs ys.
Proof.
  induction xs as [|x xs IH]; intros ys s s' H.
  - injection H as <- _. constructor.
  - simpl in H. apply bind_inr in H. destruct H as (y & s1 & Hy & H).
    apply bind_inr in H. destruct H as (ys' & s2 & Hys & [= <- <-]).
    constructor; [eauto | eapply IH; eauto].
Qed.

Lemma shaped_mapping (t : json) :
  is_mapping t = true -> shaped false t = true -> shaped true t = true.
Proof. destruct t; try discriminate. auto. Qed.

Section Shape.
Variable files : str -> file.
Variable sibling : str -> str -> error + str.
Variable doc : OpenApiDocument.

Lemma iter_normalize_shaped (fuel : nat) :
  forall data source_path s t s',
    iter_normalize files sibling fuel doc data source_path s = (inr t, s') ->
    shaped false t = true /\
    (match data with VRef _ => is_mapping t = true | _ => True end).
Proof.
  induction fuel as [|fuel IH]; intros data sp s t s' H; [discriminate |].
  cbn [iter_normalize] in H.
  destruct data as [| b | n | f | x | a]; try (injection H as <- _; split; reflexivity);
    [discriminate |].
  apply bind_inr in H. destruct H as (o & s1 & _ & H).
  destruct o as [entries | items].
  2:{ destruct (existsb _ items); [| discriminate].
      apply bind_inr in H. destruct H as (? & ? & _ & H). discriminate. }
  apply bind_inr in H. destruct H as (data & s2 & _ & H).
  apply bind_inr in H. destruct H as (o & s3 & _ & H).
  destruct o as [members | items]; [| discriminate].
  apply bind_inr in H. destruct H as (result & s4 & Hloop & [= <- <-]).
  split; [| reflexivity].
  apply mapM_inr in Hloop.
  assert (Hkeys : map fst result = sorted (map fst members) /\
                  forallb (fun e => shaped true (snd e)) result = true).
  { clear -Hloop IH. induction Hloop as [|key y keys result (s1 & s2 & Hy) _ [IHk IHs]];
      [split; reflexivity |].
    cbv beta in Hy.
    assert (Hone : fst y = key /\ shaped true (snd y) = true).
    { apply bind_inr in Hy. destruct Hy as (value & s5 & _ & Hy).
      destruct value as [| b | n | f | x | r];
        try (injection Hy as <- _; split; reflexivity).
      - injection Hy as <- _. split; [reflexivity | apply strip_is_trimmed].
      - apply bind_inr in Hy. destruct Hy as (o & s6 & _ & Hy).
        destruct o as [es | items].
        + apply bind_inr in Hy. destruct Hy as (u & s7 & Hu & [= <- _]).
          destruct (IH _ _ _ _ _ Hu) as [Hshape Hmap].
          split; [reflexivity | apply shaped_mapping; assumption].
        + apply bind_inr in Hy. destruct Hy as (rs & s7 & Hrs & [= <- _]).
          split; [reflexivity |]. simpl.
          apply mapM_inr in Hrs. clear -Hrs IH.
          induction Hrs as [|[index item] u pairs rs (s1 & s2 & Hu) _ IHrs]; [reflexivity |].
          simpl. rewrite IHrs, andb_true_r. apply (IH _ _ _ _ _ Hu). }
    destruct Hone as [Hk Hs]. simpl. rewrite Hk, IHk, Hs, IHs. split; reflexivity. }
  destruct Hkeys as [Hkeys Hvalues]. simpl.
  rewrite Hkeys, sorted_nondecreasing, Hvalues. reflexivity.
Qed.

(** X9: whatever the document and its references, the tree that
    [normalize] returns is a mapping in which, at every level, the keys of
    each mapping come in order and every string that is a member of a
    mapping is trimmed. *)
Theorem normalize_builds_ordered_trimmed (fuel : nat) (source_path : list str)
    (s s' : state) (t : json) :
  normalize files sibling fuel doc source_path s = (inr t, s') ->
  is_mapping t = true /\ shaped true t = true.
Proof.
  intros H. unfold normalize in H.
  destruct (iter_normalize_shaped _ _ _ _ _ _ H) as [Hshape Hmap].
  split; [exact Hmap | apply shaped_mapping; assumption].
Qed.

End Shape.

Lemma normalize_builds_ordered_trimmed_witness :
  exists doc s t s',
    load_document (single_file main_json override_document) main_json initial = (inr doc, s) /\
    normalize (single_file main_json override_document) no_pathlib 8 doc [] s = (inr t, s') /\
    shaped true t = true.
Proof.
  destruct (load_document (single_file main_json override_document) main_json initial)
    as [[e | doc] s] eqn:Hload; [vm_compute in Hload; discriminate |].
  destruct (normalize (single_file main_json override_document) no_pathlib 8 doc [] s)
    as [[e | t] s'] eqn:Hrun.
  { vm_compute in Hload. injection Hload as <- <-. vm_compute in Hrun. discriminate. }
  exists doc, s, t, s'. split; [reflexivity |]. split; [exact Hrun |].
  exact (proj2 (normalize_builds_ordered_trimmed _ _ _ _ _ _ _ _ Hrun)).
Defined.

(** ** [normalize] on documents without references *)

Lemma insert_entry_keys (e : str * json) (l : list (str * json)) :
  map fst (insert_entry e l) = insert_sorted (fst e) (map fst l).
Proof.
  induction l as [|e' l IH]; [reflexivity |].
  simpl. destruct (str_ltb (fst e') (fst e)); simpl; [rewrite IH |]; reflexivity.
Qed.

Lemma sort_entries_keys (l : list (str * json)) :
  map fst (sort_entries l) = sorted (map fst l).
Proof.
  induction l as [|e l IH]; [reflexivity |].
  simpl. rewrite insert_entry_keys, IH. reflexivity.
Qed.

Lemma insert_entry_in (e y : str * json) (l : list (str * json)) :
  In y (insert_entry e l) -> y = e \/ In y l.
Proof.
  induction l as [|e' l IH]; simpl; [intuition |].
  destruct (str_ltb (fst e') (fst e)); simpl; intuition.
Qed.

Lemma sort_entries_in (y : str * json) (l : list (str * json)) :
  In y (sort_entries l) -> In y l.
Proof.
  induction l as [|e l IH]; [auto |].
  simpl. intros H. apply insert_entry_in in H. intuition.
Qed.

Lemma has_key_in (key : str) (keys : list str) : has_key key keys = true <-> In key keys.
Proof.
  unfold has_key. rewrite existsb_exists. split.
  - intros (k & Hin & Heq). apply str_eqb_eq in Heq. subst. exact Hin.
  - intros Hin. exists key. split; [exact Hin | apply str_eqb_refl].
Qed.

Lemma json_get_distinct (entries : list (str * json)) (m : str * json) :
  distinct (map fst entries) = true -> In m entries ->
  json_get entries (fst m) = Some (snd m).
Proof.
  induction entries as [|[k v] entries IH]; [intros _ [] |].
  simpl. intros H Hin. apply andb_true_iff in H. destruct H as [Hk Hrest].
  destruct Hin as [<- | Hin]; simpl.
  - rewrite str_eqb_refl. reflexivity.
  - destruct (str_eqb k (fst m)) eqn:E; [| apply IH; assumption].
    apply str_eqb_eq in E. subst k. apply negb_true_iff in Hk.
    assert (Hhas : has_key (fst m) (map fst entries) = true)
      by (apply has_key_in, in_map; exact Hin).
    congruence.
Qed.

Section Plain.
Variable files : str -> file.
Variable sibling : str -> str -> error + str.
Variable doc : OpenApiDocument.

Lemma formed_items (fuel : nat) (source_path : list str) (s : state)
    (vs : list value) (items : list json) :
  Forall (formed files sibling doc) items ->
  Forall2 (represents (objects s)) vs items ->
  plain (JList items) = true ->
  elements_typed (JList items) = true ->
  (depth (JList items) <= S fuel)%nat ->
  forall number : nat -> nat,
    mapM (fun '(index, item) =>
            iter_normalize files sibling fuel doc item (source_path ++ [str_of_nat index]))
         (imap (fun index item => (number index, item)) vs) s
    = (inr (map (form false) items), s).
Proof.
  intros Hformed Hrep Hplain Htyped Hdepth.
  simpl in Hplain, Htyped, Hdepth.
  rewrite forallb_forall in Hplain, Htyped. rewrite List.Forall_forall in Hformed.
  assert (Hall : forall x, In x items -> (depth x <= fuel)%nat).
  { intros x Hx. pose proof (depth_item items x Hx). lia. }
  clear Hdepth. induction Hrep as [|v x vs items Hv _ IH]; intros number; [reflexivity |].
  simpl.
  assert (Hx : In x (x :: items)) by (left; reflexivity).
  specialize (Htyped x Hx) as Hxt. apply andb_true_iff in Hxt. destruct Hxt as [Hel Hxt].
  rewrite (bind_eq _ _ _ _ _
             (Hformed x Hx fuel v _ s Hv (Hplain x Hx) Hxt Hel (Hall x Hx))).
  rewrite (bind_eq _ _ _ _ _ (IH
             (fun y Hy => Hformed y (or_intror Hy))
             (fun y Hy => Hplain y (or_intror Hy))
             (fun y Hy => Htyped y (or_intror Hy))
             (fun y Hy => Hall y (or_intror Hy))
             (number ∘ S))).
  reflexivity.
Qed.

Lemma formed_everywhere (t : json) : formed_inside files sibling doc t.
Proof.
  induction t as [| b | n | f | x | items IH | entries IH] using json_induction.
  - split; [| exact I]. intros fuel v sp s _ _ _ Hel. discriminate.
  - split; [| exact I]. intros fuel v sp s Hrep _ _ _ Hd. inversion Hrep; subst.
    destruct fuel; [simpl in Hd; lia | reflexivity].
  - split; [| exact I]. intros fuel v sp s Hrep _ _ _ Hd. inversion Hrep; subst.
    destruct fuel; [simpl in Hd; lia | reflexivity].
  - split; [| exact I]. intros fuel v sp s Hrep _ _ _ Hd. inversion Hrep; subst.
    destruct fuel; [simpl in Hd; lia | reflexivity].
  - split; [| exact I]. intros fuel v sp s Hrep _ _ _ Hd. inversion Hrep; subst.
    destruct fuel; [simpl in Hd; lia | reflexivity].
  - split; [intros fuel v sp s _ _ _ Hel; discriminate |].
    eapply List.Forall_impl; [| exact IH]. intros x [Hx _]. exact Hx.
  - split; [| exact I].
    intros fuel v sp s Hrep Hplain Htyped _ Hdepth.
    inversion Hrep as [ | | | | | | a es entries' Ha Hmembers]; subst.
    destruct fuel as [|fuel]; [simpl in Hdepth; lia |].
    simpl in Hplain, Htyped, Hdepth.
    apply andb_true_iff in Hplain. destruct Hplain as [Hplain Hvalues].
    apply andb_true_iff in Hplain. destruct Hplain as [Hnoref Hdistinct].
    apply negb_true_iff in Hnoref.
    pose proof (represents_keys _ _ _ Hmembers) as Hkeys.
    rewrite forallb_forall in Hvalues, Htyped. rewrite List.Forall_forall in IH.
    cbn [iter_normalize form].
    rewrite (bind_eq _ _ _ _ _ (on_heap_deref s a _ Ha)).
    rewrite (entries_get_absent es (lit "$ref")) by (rewrite Hkeys; assumption).
    erewrite bind_eq by reflexivity.
    rewrite (bind_eq _ _ _ _ _ (on_heap_deref s a _ Ha)).
    set (g := fun e : str * json => (fst e, form true (snd e))).
    assert (Hsorted : sorted (map fst es) = map fst (sort_entries (map g entries))).
    { rewrite sort_entries_keys, map_map, Hkeys. reflexivity. }
    rewrite Hsorted.
    erewrite bind_eq; [reflexivity |].
    apply mapM_pure, Forall2_fmap_l, Forall2_same_length_lookup.
    split; [reflexivity |].
    intros i y y' Hy Hy'. rewrite Hy in Hy'. injection Hy' as <-.
    assert (Hin : In y (map g entries)).
    { apply sort_entries_in, list_elem_of_In, list_elem_of_lookup. eauto. }
    apply in_map_iff in Hin. destruct Hin as ([km tm] & <- & Hinm).
    unfold compose, g. simpl fst. simpl snd.
    pose proof (entries_get_represents _ _ _ km Hmembers) as Hget.
    pose proof (json_get_distinct entries (km, tm) Hdistinct Hinm) as Hjg.
    simpl in Hjg. rewrite Hjg in Hget.
    destruct Hget as (ve & Hve & Hv).
    rewrite (bind_eq _ _ _ _ _ (on_heap_dict_getitem s a es km ve Ha Hve)).
    specialize (Hvalues _ Hinm). specialize (Htyped _ Hinm). specialize (IH _ Hinm).
    pose proof (depth_member entries _ Hinm) as Hd.
    simpl in Hvalues, Htyped, IH, Hd. destruct IH as [Hformed Hitems].
    inversion Hv as [ | | | | str | l vs items Hl Hvs | d ds members Hd' Hds]; subst;
      try reflexivity.
    + rewrite (bind_eq _ _ _ _ _ (on_heap_deref s l _ Hl)).
      rewrite (bind_eq _ _ _ _ _
                 (formed_items fuel sp s vs items Hitems Hvs Hvalues Htyped
                    ltac:(lia) (fun index => index))).
      reflexivity.
    + rewrite (bind_eq _ _ _ _ _ (on_heap_deref s d _ Hd')).
      rewrite (bind_eq _ _ _ _ _
                 (Hformed fuel (VRef d) (sp ++ [km]) s Hv Hvalues Htyped eq_refl ltac:(lia))).
      reflexivity.
Qed.

Lemma normalize_plain (s : state) (t : json) (source_path : list str) (k : nat) :
  represents (objects s) (VRef (this doc)) t ->
  is_mapping t = true -> plain t = true -> elements_typed t = true ->
  normalize files sibling (depth t + k) doc source_path s = (inr (form true t), s).
Proof.
  intros Hrep Hmap Hplain Htyped. unfold normalize.
  destruct t; try discriminate.
  apply (proj1 (formed_everywhere (JDict entries))); auto. lia.
Qed.

(** X10: on a document without references (no [$ref] key at any level,
    lists of strings, numbers, booleans and mappings), [normalize] is a pure
    function of the tree: it returns the canonical form [form], and it
    changes nothing in the store. *)
Theorem normalize_is_form_without_references (s : state) (t : json)
    (source_path : list str) (k : nat) :
  represents (objects s) (VRef (this doc)) t ->
  is_mapping t = true -> plain t = true -> elements_typed t = true ->
  normalize files sibling (depth t + k) doc source_path s = (inr (form true t), s).
Proof. exact (normalize_plain s t source_path k). Qed.

End Plain.

Lemma normalize_is_form_without_references_witness :
  exists doc s,
    load_document (single_file main_json untidy_document) main_json initial = (inr doc, s) /\
    normalize (single_file main_json untidy_document) no_pathlib
      (depth (JDict untidy_document) + 0) doc [] s
    = (inr (JDict [ (lit "a", JList [ JStr (lit " y ");
                                      JDict [ (lit "c", JStr (lit "z")); (lit "d", JInt 1) ] ]);
                    (lit "b", JStr (lit "x")) ]), s).
Proof.
  destruct (load_document_fresh (single_file main_json untidy_document) main_json
              untidy_document initial eq_refl eq_refl)
    as (doc & s & new & Hload & _ & _ & _ & Hrep).
  exists doc, s. split; [exact Hload |].
  exact (normalize_is_form_without_references (single_file main_json untidy_document)
           no_pathlib doc s (JDict untidy_document) [] 0 Hrep eq_refl eq_refl eq_refl).
Defined.

(** ** [compare] *)

Lemma load_single (files : str -> file) (mergepatch_merge : value -> value -> M heap value)
    (p : str) (s s' : state) (doc : OpenApiDocument) :
  load_document files p s = (inr doc, s') ->
  fst (load files mergepatch_merge [p] s) = (inr doc, s').
Proof.
  intros H. unfold load. simpl. erewrite bind_eq by reflexivity.
  rewrite (bind_eq _ _ _ _ _ H). reflexivity.
Qed.




(** With references it is otherwise: the first [normalize] takes the [$ref]
    out of the memoized document, so the second one sees another tree. *)
Lemma compare_with_itself_after_references :
  exists old new s',
    compare (single_file main_json override_document) no_pathlib sample_merge
      (fun old new => (old, new)) 8 [main_json] [main_json] initial
    = (inr (old, new), s') /\
    json_at old [lit "a"; lit "y"] = Some (JInt 3) /\
    json_at new [lit "a"; lit "y"] = None.
Proof.
  eexists _, _, _. split; [vm_compute; reflexivity |]. split; reflexivity.
Qed.


(** ** [main] *)

Lemma filters_return (diff : diff_op) :
  has_str_path diff -> Forall (fun entry => exists b, snd entry diff = inr b) filters.
Proof.
  intros [p Hp]. unfold filters.
  repeat (apply List.Forall_cons || apply List.Forall_nil);
    cbv beta iota delta [snd path_contains path_endswith path_startswith
                         _ignore_response_property_readonly ignore_added_paths
                         str_method and_then or_else];
    rewrite Hp; repeat match goal with |- context [if ?b then _ else _] => destruct b
                                     | |- context [match ?b with true => _ | false => _ end] =>
                                         destruct b end; eauto.
Qed.

Lemma should_ignore_matches (registry : list (str * (diff_op -> error + bool)))
    (diff : diff_op) :
  Forall (fun entry => exists b, snd entry diff = inr b) registry ->
  should_ignore false registry diff = inr (matches registry diff).
Proof.
  induction 1 as [| [name func] registry [b Hb] _ IH]; [reflexivity |].
  simpl in *. rewrite Hb. destruct b; [reflexivity | exact IH].
Qed.

(** X12: without [--no-filter], and when every operation has a string under
    ["path"] (or no such key), the loop of [main] raises nothing and prints
    exactly the operations that no filter of the registry holds of, in the
    order of the patch. *)
Theorem main_prints_unmatched_operations (diffs : list diff_op) :
  Forall has_str_path diffs ->
  report false filters diffs
  = (List.filter (fun diff => negb (matches filters diff)) diffs, None).
Proof.
  induction 1 as [| diff diffs Hdiff _ IH]; [reflexivity |].
  cbn [report]. rewrite (should_ignore_matches filters diff (filters_return diff Hdiff)), IH.
  cbn [List.filter]. destruct (matches filters diff); reflexivity.
Qed.

Lemma main_prints_unmatched_operations_witness :
  report false filters
    [ [ (lit "op", JStr (lit "replace")); (lit "path", JStr (lit "/info/title")) ];
      [ (lit "op", JStr (lit "remove")); (lit "path", JStr (lit "/paths/~1a/get")) ];
      [ (lit "op", JStr (lit "add")); (lit "path", JStr (lit "/paths/~1b")) ];
      [ (lit "op", JStr (lit "add")); (lit "path", JStr (lit "/host")) ] ]
  = ([ [ (lit "op", JStr (lit "remove")); (lit "path", JStr (lit "/paths/~1a/get")) ];
       [ (lit "op", JStr (lit "add")); (lit "path", JStr (lit "/host")) ] ], None).
Proof.
  rewrite main_prints_unmatched_operations.
  - vm_compute. reflexivity.
  - repeat constructor; eexists; vm_compute; reflexivity.
Defined.

Lemma should_ignore_no_filter (registry : list (str * (diff_op -> error + bool)))
    (diff : diff_op) :
  should_ignore true registry diff = inr false.
Proof. induction registry as [| [name func] registry IH]; [reflexivity | exact IH]. Qed.

(** X13: with [--no-filter] the loop of [main] calls no filter: whatever the
    registry holds and whatever the operations are, it raises nothing and
    prints every operation, in the order of the patch. *)
Theorem main_no_filter_prints_everything
    (registry : list (str * (diff_op -> error + bool))) (diffs : list diff_op) :
  report true registry diffs = (diffs, None).
Proof.
  induction diffs as [| diff diffs IH]; [reflexivity |].
  cbn [report]. rewrite should_ignore_no_filter, IH. reflexivity.
Qed.


(** ** References are followed once *)

(** X14: a [$ref] whose target is itself a [$ref] mapping is followed one
    step only.  [iter_normalize] tests ["$ref" in data] before it replaces
    [data] by the dereferenced mapping, so the inner reference [r], whatever
    it is, comes out as a trimmed string under ["$ref"], and the file that
    [r] names is never opened: the only files loaded are [main.json] and
    [other.json]. *)
Theorem reference_is_followed_once (sibling : str -> str -> error + str) (r : str) (k : nat) :
  sibling main_json (lit "other.json") = inr (lit "other.json") ->
  exists s',
    normalized (chained_files r) sibling sample_merge (3 + k) [main_json] initial
    = (inr (JDict [ (lit "a",
                     JDict [ (lit "$ref", JStr (strip r));
                             (lit "__fragment",
                              JDict [ (lit "raw", JStr (lit "other.json#/b")) ]) ]) ]), s') /\
    map fst (load_document_cache s') = [lit "other.json"; main_json].
Proof.
  intros Hsibling. eexists.
  vm_compute in Hsibling. vm_compute. rewrite Hsibling.
  split; vm_compute; reflexivity.
Qed.

Lemma reference_is_followed_once_witness :
  exists s',
    normalized (chained_files (lit " missing.json#/c ")) (fun _ filepath => inr filepath)
      sample_merge (3 + 0) [main_json] initial
    = (inr (JDict [ (lit "a",
                     JDict [ (lit "$ref", JStr (lit "missing.json#/c"));
                             (lit "__fragment",
                              JDict [ (lit "raw", JStr (lit "other.json#/b")) ]) ]) ]), s') /\
    map fst (load_document_cache s') = [lit "other.json"; main_json].
Proof.
  exact (reference_is_followed_once (fun _ filepath => inr filepath)
           (lit " missing.json#/c ") 0 eq_refl).
Defined.


(** ** What [load] leaves behind *)

Lemma merge_tables (mergepatch_merge : value -> value -> M heap value)
    (self other : OpenApiDocument) (s : state) r s' :
  merge mergepatch_merge self other s = (r, s') ->
  load_document_cache s' = load_document_cache s.
Proof.
  unfold merge. intros H. apply on_heap_inv in H. destruct H as (h & _ & ->). reflexivity.
Qed.

Lemma cache_rank_merges (files : str -> file)
    (mergepatch_merge : value -> value -> M heap value) (root : OpenApiDocument)
    (p : str) (ps : list str) :
  forall s i doc r s',
    cache_rank p (load_document_cache s) = Some (i, doc) ->
    (i + length ps < maxsize)%nat ->
    foldM (fun _ q => let* other := load_document files q in
                      merge mergepatch_merge root other) tt ps s = (r, s') ->
    exists j, cache_rank p (load_document_cache s') = Some (j, doc).
Proof.
  induction ps as [| q ps IH]; intros s i doc r s' Hrank Hlt Hrun.
  - injection Hrun as _ <-. eauto.
  - simpl in Hlt. cbn [foldM] in Hrun. unfold bind at 1 2 in Hrun.
    destruct (load_document files q s) as [[e | other] sa] eqn:Hload;
      destruct (cache_rank_load files p q s sa _ i doc Hrank ltac:(lia) Hload)
        as (j & Hj & Hranka).
    + injection Hrun as _ <-. eauto.
    + destruct (merge mergepatch_merge root other sa) as [[e | []] sb] eqn:Hmerge;
        apply merge_tables in Hmerge.
      * injection Hrun as _ <-. rewrite Hmerge. eauto.
      * apply (IH sb j doc r s'); [rewrite Hmerge; exact Hranka | lia | exact Hrun].
Qed.

(** X15: [load] merges the later files into the memoized document of the
    first path, and that document stays in the table of [load_document]
    (for up to 127 later paths): loading the first path alone afterwards
    returns the very document that holds the merge and builds nothing in the
    store, so the file's own contents are not read again. *)
Theorem merged_document_stays_memoized (files : str -> file)
    (mergepatch_merge : value -> value -> M heap value)
    (p : str) (ps : list str) (s s1 : state) (root : OpenApiDocument) :
  fst (load files mergepatch_merge (p :: ps) s) = (inr root, s1) ->
  (length ps <= 127)%nat ->
  exists s2,
    fst (load files mergepatch_merge [p] s1) = (inr root, s2) /\
    objects s2 = objects s1.
Proof.
  intros Hrun Hlen. unfold load in Hrun. simpl in Hrun.
  apply bind_inr in Hrun. destruct Hrun as (p0 & s0 & [= <- <-] & Hrun).
  apply bind_inr in Hrun. destruct Hrun as (root' & sa & Hroot & Hrun).
  apply bind_inr in Hrun. destruct Hrun as ([] & sb & Hloop & [= -> ->]).
  assert (Hrank : cache_rank p (load_document_cache sa) = Some (O, root)).
  { apply lru_cache_inv in Hroot.
    destruct Hroot as [(v & Hfind & [= ->] & ->) | (Hmiss & sx & Hbody & ->)]; simpl;
      rewrite str_eqb_refl; reflexivity. }
  destruct (cache_rank_merges files mergepatch_merge root p ps sa O root _ _ Hrank
              ltac:(unfold maxsize; simpl; lia) Hloop) as (j & Hafter).
  eexists. split.
  - apply load_single. unfold load_document, lru_cache.
    rewrite cache_rank_find, Hafter. reflexivity.
  - reflexivity.
Qed.

Lemma merged_document_stays_memoized_witness :
  exists root s1 s2,
    fst (load two_files sample_merge [lit "a.json"; lit "b.json"] initial) = (inr root, s1) /\
    fst (load two_files sample_merge [lit "a.json"] s1) = (inr root, s2) /\
    member s2 (VRef (this root)) (lit "y") = Some (VInt 2).
Proof.
  destruct (load two_files sample_merge [lit "a.json"; lit "b.json"] initial)
    as [[[e | root] s1] rest] eqn:Hrun; [vm_compute in Hrun; discriminate |].
  destruct (merged_document_stays_memoized two_files sample_merge (lit "a.json")
              [lit "b.json"] initial s1 root) as (s2 & Hagain & Hobjects).
  { rewrite Hrun. reflexivity. }
  { simpl. lia. }
  exists root, s1, s2. split; [reflexivity |]. split; [exact Hagain |].
  unfold member. rewrite Hobjects.
  vm_compute in Hrun. injection Hrun as <- <- _. reflexivity.
Defined.


(** ** When [load_document] raises *)


